(** * use-temporary-disclosure: the hook and the event loop it runs on

    The repository is one React hook, [useTemporaryDisclosure], in two
    variants: the published one (option fields [duration] / [callback]) and
    an older copy under [src/useTemporaryDisclosure/index.ts] (option fields
    [t] / [callBack]).  The hook keeps one boolean in a [useState] cell and
    offers three operations that write it from [setTimeout] handlers.

    The development has three layers:
    - [Host]: what the hook calls but does not define: the [useState] cell,
      [setTimeout] with a virtual clock, the global scope, and the event
      loop that fires pending timers;
    - [Current] and [Legacy]: the two variants, translated function by
      function;
    - the properties of the operations. *)

From Stdlib Require Import ZArith Lia.
From stdpp Require Import base strings list gmap.

(** ** JavaScript values the hook handles *)

(** A [number] as far as the hook looks at it: [NaN], or an integral value.
    Durations are millisecond counts; fractions and infinities are left out. *)
Inductive JsNumber : Type :=
  | NaN
  | Num (z : Z).

(** ToBoolean on a number: [NaN] and [0] are falsy. *)
Definition truthy_number (n : JsNumber) : bool :=
  match n with
  | NaN => false
  | Num z => negb (z =? 0)%Z
  end.

(** [x || dflt] where [x] is an optional number ([None] is [undefined]). *)
Definition or_number (x : option JsNumber) (dflt : JsNumber) : JsNumber :=
  match x with
  | Some n => if truthy_number n then n else dflt
  | None => dflt
  end.

(** A user procedure [() => void].  The hook never looks inside one: a
    call is recorded in the trace, and it either returns or throws.  What
    the body does besides (calling the hook again, say) is not part of the
    model. *)
Record Callback : Type := { cb_name : string; cb_throws : bool }.

(** Values stored in the object the hook returns and in the global scope. *)
Inductive JsVal : Type :=
  | VBool (b : bool)
  | VFunction (name : string).

Inductive Exn : Type :=
  | CallbackThrew (cb : Callback)
  | ReferenceError (name : string).

(** What an observer of the component can see happen. *)
Inductive Effect : Type :=
  | FlagSet (b : bool)
  | Invoked (cb : Callback)
  | Uncaught (e : Exn).

(** One line of the trace: when it happened (virtual ms), inside which timer
    task ([None]: synchronously, inside the caller's own task), and what. *)
Record Entry : Type := { at_ms : Z; by_timer : option nat; what : Effect }.

#[global] Instance JsNumber_eq_dec : EqDecision JsNumber.
Proof. solve_decision. Defined.
#[global] Instance Callback_eq_dec : EqDecision Callback.
Proof. solve_decision. Defined.
#[global] Instance Exn_eq_dec : EqDecision Exn.
Proof. solve_decision. Defined.
#[global] Instance Effect_eq_dec : EqDecision Effect.
Proof. solve_decision. Defined.

(** ** The host: state cell, timers, event loop *)

Module Host.

Section Machine.

(** [H] is the type of timer handlers (the closures handed to
    [setTimeout]), as data. *)
Context {H : Type}.

Record Timer : Type := { handle : nat; due : Z; handler : H }.

Record Machine : Type := {
  clock : Z;                    (* virtual time, ms *)
  running : option nat;         (* handle of the timer task being run *)
  hook : option bool;           (* the useState cell; None before the first render *)
  timers : list Timer;          (* pending timers, in registration order *)
  next_handle : nat;
  globals : gmap string JsVal;  (* the global scope *)
  log : list Entry
}.

(** Computations of the hook: state passing with exceptions. *)
Definition JS (A : Type) : Type := Machine → (Exn + A) * Machine.

Definition ret {A} (a : A) : JS A := λ m, (inr a, m).

Definition throw {A} (e : Exn) : JS A := λ m, (inl e, m).

Definition bind {A B} (c : JS A) (k : A → JS B) : JS B :=
  λ m, match c m with
       | (inr a, m') => k a m'
       | (inl e, m') => (inl e, m')
       end.

Definition emit (w : Effect) (m : Machine) : Machine :=
  {| clock := clock m; running := running m; hook := hook m;
     timers := timers m; next_handle := next_handle m; globals := globals m;
     log := log m ++ [{| at_ms := clock m; by_timer := running m; what := w |}] |}.

Definition set_hook (c : option bool) (m : Machine) : Machine :=
  {| clock := clock m; running := running m; hook := c;
     timers := timers m; next_handle := next_handle m; globals := globals m;
     log := log m |}.

Definition set_timers (ts : list Timer) (m : Machine) : Machine :=
  {| clock := clock m; running := running m; hook := hook m;
     timers := ts; next_handle := next_handle m; globals := globals m;
     log := log m |}.

Definition set_running (r : option nat) (m : Machine) : Machine :=
  {| clock := clock m; running := r; hook := hook m;
     timers := timers m; next_handle := next_handle m; globals := globals m;
     log := log m |}.

Definition set_clock (c : Z) (m : Machine) : Machine :=
  {| clock := c; running := running m; hook := hook m;
     timers := timers m; next_handle := next_handle m; globals := globals m;
     log := log m |}.

(** [useState(init)]: the first render stores [init]; later renders read
    the cell. *)
Definition useState (init : bool) : JS bool :=
  λ m, match hook m with
       | Some b => (inr b, m)
       | None => (inr init, set_hook (Some init) m)
       end.

(** The setter [useState] hands out: a write to the cell. *)
Definition setIsOpen (b : bool) : JS unit :=
  λ m, (inr tt, emit (FlagSet b) (set_hook (Some b) m)).

(** The largest delay a timer honours: delays are signed 32-bit. *)
Definition TIMEOUT_MAX : Z := 2147483647.

(** The delay [setTimeout] uses: not-a-number counts as 0, a negative
    delay is raised to 0, and a delay that does not fit in 32 bits is not
    honoured: the timer fires after 1 ms. *)
Definition timeout_of (delay : JsNumber) : Z :=
  match delay with
  | NaN => 0
  | Num z => if (TIMEOUT_MAX <? z)%Z then 1 else Z.max 0 z
  end.

(** [setTimeout(h, delay)]: registers a timer and returns its handle. *)
Definition setTimeout (h : H) (delay : JsNumber) : JS nat :=
  λ m, (inr (next_handle m),
        {| clock := clock m; running := running m; hook := hook m;
           timers := timers m ++ [{| handle := next_handle m;
                                     due := clock m + timeout_of delay;
                                     handler := h |}];
           next_handle := S (next_handle m); globals := globals m;
           log := log m |}).

(** Calling a user procedure. *)
Definition invoke (cb : Callback) : JS unit :=
  λ m, (if cb_throws cb then inl (CallbackThrew cb) else inr tt,
        emit (Invoked cb) m).

(** [f && f()] for an optional procedure [f]. *)
Definition and_call (f : option Callback) : JS unit :=
  match f with
  | Some cb => invoke cb
  | None => ret tt
  end.

(** Reading a free identifier from the global scope. *)
Definition global (name : string) : JS JsVal :=
  λ m, match globals m !! name with
       | Some v => (inr v, m)
       | None => (inl (ReferenceError name), m)
       end.

(** *** The event loop *)

(** What a handler does when its timer fires. *)
Variable run : H → JS unit.

Definition remove_timer (h : nat) (m : Machine) : Machine :=
  set_timers (filter (λ t, handle t ≠ h) (timers m)) m.

Definition end_task (r : Exn + unit) (m : Machine) : Machine :=
  set_running None match r with
                   | inl e => emit (Uncaught e) m
                   | inr _ => m
                   end.

(** Firing one timer: it leaves the pending list, its handler runs as a
    task of its own, and an exception escaping the handler is reported. *)
Definition fire (t : Timer) (m : Machine) : Machine :=
  let '(r, m') := run (handler t) (set_running (Some (handle t)) (remove_timer (handle t) m)) in
  end_task r m'.

(** Timers fire by due time, and by registration order among equals. *)
Definition precedes (t u : Timer) : bool :=
  (due t <? due u)%Z || ((due t =? due u)%Z && (handle t <=? handle u)%nat).

Definition wait (dt : Z) (m : Machine) : Machine := set_clock (clock m + dt) m.

(** One move of the loop: time passes, or the first pending timer that is
    due fires.  A timer may fire late, never early. *)
Inductive step : Machine → Machine → Prop :=
  | step_wait m dt :
      (0 ≤ dt)%Z →
      step m (wait dt m)
  | step_fire m t :
      t ∈ timers m →
      (due t ≤ clock m)%Z →
      Forall (λ u, precedes t u = true) (timers m) →
      step m (fire t m).

Definition steps : Machine → Machine → Prop := rtc step.

(** The punctual schedule: every timer fires exactly when it is due. *)
Fixpoint pick (ts : list Timer) : option Timer :=
  match ts with
  | [] => None
  | t :: rest =>
      match pick rest with
      | Some u => if precedes t u then Some t else Some u
      | None => Some t
      end
  end.

Definition wait_until (T : Z) (m : Machine) : Machine :=
  set_clock (Z.max (clock m) T) m.

Fixpoint run_loop (fuel : nat) (T : Z) (m : Machine) : Machine :=
  match fuel with
  | O => m
  | S fuel' =>
      match pick (timers m) with
      | Some t =>
          if (due t <=? T)%Z
          then run_loop fuel' T (fire t (wait_until (due t) m))
          else m
      | None => m
      end
  end.

(** Run the loop up to time [T]: everything due by then has fired. *)
Definition run_until (T : Z) (m : Machine) : Machine :=
  wait_until T (run_loop (length (timers m)) T m).

End Machine.

Arguments Timer : clear implicits.
Arguments Machine : clear implicits.
Arguments JS : clear implicits.

(** A machine on which nothing has rendered yet. *)
Definition boot {H} (g : gmap string JsVal) : Machine H :=
  {| clock := 0; running := None; hook := None; timers := [];
     next_handle := 0; globals := g; log := [] |}.

End Host.

Import Host.

Declare Scope js_scope.
Delimit Scope js_scope with js.
Notation "x <- c ;; k" := (bind c (λ x, k))
  (at level 100, c at next level, right associativity) : js_scope.
Notation "c ;; k" := (bind c (λ _, k))
  (at level 100, right associativity) : js_scope.

(** An options object as it arrives at run time: its number-valued and its
    procedure-valued properties, by name.  The declared types of the two
    variants say which of them each one reads. *)
Record OptionsObject : Type := {
  numbers : gmap string JsNumber;
  procedures : gmap string Callback
}.

(** ** The published variant (option fields [duration], [callback]) *)

Module Current.

Record TemporaryDisclosureFunctionOpts : Type := {
  duration : option JsNumber;
  callback : option Callback
}.

(** The two arrow functions handed to [setTimeout], with what they capture. *)
Inductive Closure : Type :=
  | OpenForTimeout (opts : TemporaryDisclosureFunctionOpts)
  | ActionTimeout (nextState : bool) (opts : TemporaryDisclosureFunctionOpts).

Definition run (c : Closure) : JS Closure unit :=
  match c with
  | OpenForTimeout opts =>
      (setIsOpen false ;;
       and_call (callback opts))%js
  | ActionTimeout nextState opts =>
      (setIsOpen nextState ;;
       and_call (callback opts))%js
  end.

Definition openFor (opts : TemporaryDisclosureFunctionOpts) : JS Closure unit :=
  (setIsOpen true ;;
   _h <- setTimeout (OpenForTimeout opts) (or_number (duration opts) (Num 0)) ;;
   ret tt)%js.

Definition action (nextState : bool) (opts : TemporaryDisclosureFunctionOpts) : JS Closure unit :=
  (_h <- setTimeout (ActionTimeout nextState opts) (or_number (duration opts) (Num 0)) ;;
   ret tt)%js.

Definition openIn (opts : TemporaryDisclosureFunctionOpts) : JS Closure unit :=
  action true opts.

Definition closeIn (opts : TemporaryDisclosureFunctionOpts) : JS Closure unit :=
  action false opts.

Definition useTemporaryDisclosure : JS Closure (gmap string JsVal) :=
  (isOpen <- useState false ;;
   ret (<["isOpen" := VBool isOpen]>
        (<["openIn" := VFunction "openIn"]>
        (<["closeIn" := VFunction "closeIn"]>
        (<["openFor" := VFunction "openFor"]> ∅)))))%js.

(** The properties of its declared return type, [UseTemporaryDisclosureObj]. *)
Definition UseTemporaryDisclosureObj : gset string :=
  {[ "isOpen"; "openIn"; "closeIn"; "openFor" ]}.

(** What this variant reads of an options object: [opts.duration] and
    [opts.callback]. *)
Definition of_object (obj : OptionsObject) : TemporaryDisclosureFunctionOpts :=
  {| duration := numbers obj !! "duration";
     callback := procedures obj !! "callback" |}.

End Current.

(** ** The older variant (option fields [t], [callBack]) *)

Module Legacy.

Record TemporaryDisclosureFunctionOpts : Type := {
  t : option JsNumber;
  callBack : option Callback
}.

Inductive Closure : Type :=
  | OpenForTimeout (opts : TemporaryDisclosureFunctionOpts)
  | ActionTimeout (nextState : bool) (opts : TemporaryDisclosureFunctionOpts).

Definition run (c : Closure) : JS Closure unit :=
  match c with
  | OpenForTimeout opts =>
      (setIsOpen false ;;
       and_call (callBack opts))%js
  | ActionTimeout nextState opts =>
      (setIsOpen nextState ;;
       and_call (callBack opts))%js
  end.

Definition openFor (opts : TemporaryDisclosureFunctionOpts) : JS Closure unit :=
  (setIsOpen true ;;
   _h <- setTimeout (OpenForTimeout opts) (or_number (t opts) (Num 0)) ;;
   ret tt)%js.

Definition action (nextState : bool) (opts : TemporaryDisclosureFunctionOpts) : JS Closure unit :=
  (_h <- setTimeout (ActionTimeout nextState opts) (or_number (t opts) (Num 0)) ;;
   ret tt)%js.

Definition openIn (opts : TemporaryDisclosureFunctionOpts) : JS Closure unit :=
  action true opts.

Definition closeIn (opts : TemporaryDisclosureFunctionOpts) : JS Closure unit :=
  action false opts.

(** The returned object literal lists [open], which the function never
    declares: the name is looked up in the global scope. *)
Definition useTemporaryDisclosure : JS Closure (gmap string JsVal) :=
  (isOpen <- useState false ;;
   open <- global "open" ;;
   ret (<["isOpen" := VBool isOpen]>
        (<["open" := open]>
        (<["openIn" := VFunction "openIn"]>
        (<["closeIn" := VFunction "closeIn"]>
        (<["openFor" := VFunction "openFor"]> ∅))))))%js.

(** The properties its own return type, [UseTemporaryDisclosureProps],
    declares. *)
Definition UseTemporaryDisclosureProps : gset string :=
  {[ "isOpen"; "openIn"; "closeIn"; "openFor" ]}.

(** What this variant reads of an options object: [opts.t] and
    [opts.callBack]. *)
Definition of_object (obj : OptionsObject) : TemporaryDisclosureFunctionOpts :=
  {| t := numbers obj !! "t";
     callBack := procedures obj !! "callBack" |}.

End Legacy.

(** ** Vocabulary of the properties *)

(** A handler that stays inside its task: it leaves the clock, the pending
    timers and the task context alone, and every line it adds to the trace
    is stamped with the current time and task. *)
Definition handler_frame {H} (run : H → JS H unit) : Prop :=
  ∀ c m,
    clock (run c m).2 = clock m ∧
    running (run c m).2 = running m ∧
    timers (run c m).2 = timers m ∧
    next_handle (run c m).2 = next_handle m ∧
    ∃ new, log (run c m).2 = log m ++ new ∧
           Forall (λ e, at_ms e = clock m ∧ by_timer e = running m) new.

(** Handles of pending timers were all handed out already. *)
Definition handles_fresh {H} (m : Machine H) : Prop :=
  Forall (λ t, handle t < next_handle m) (timers m).

(** The trace of one scheduled transition fired at time [at_] as timer [h]:
    the flag write, then the callback if there is one, then the report of
    the exception if the callback threw. *)
Definition transition_trace (at_ : Z) (h : nat) (b : bool) (cb : option Callback) : list Entry :=
  {| at_ms := at_; by_timer := Some h; what := FlagSet b |} ::
  match cb with
  | None => []
  | Some c =>
      {| at_ms := at_; by_timer := Some h; what := Invoked c |} ::
      (if cb_throws c
       then [{| at_ms := at_; by_timer := Some h; what := Uncaught (CallbackThrew c) |}]
       else [])
  end.

Definition is_invocation (e : Entry) : bool :=
  match what e with
  | Invoked _ => true
  | _ => false
  end.

Definition is_uncaught (e : Entry) : bool :=
  match what e with
  | Uncaught _ => true
  | _ => false
  end.

(** Falsy values of the optional delay: omitted, [NaN], [0]. *)
Definition falsy_duration (d : option JsNumber) : bool :=
  match d with
  | None => true
  | Some n => negb (truthy_number n)
  end.

(** What a pending closure of the published variant will write, and the
    procedure it will call afterwards. *)
Definition written (c : Current.Closure) : bool :=
  match c with
  | Current.OpenForTimeout _ => false
  | Current.ActionTimeout nextState _ => nextState
  end.

Definition completion (c : Current.Closure) : option Callback :=
  match c with
  | Current.OpenForTimeout opts => Current.callback opts
  | Current.ActionTimeout _ opts => Current.callback opts
  end.

(** The timer an operation registers on machine [m]. *)
Definition registered (c : Current.Closure) (d : option JsNumber) (m : Machine Current.Closure) : Timer Current.Closure :=
  {| handle := next_handle m;
     due := clock m + timeout_of (or_number d (Num 0));
     handler := c |}.

(** The machine right after a fresh component rendered once. *)
Definition mounted : Machine Current.Closure :=
  (Current.useTemporaryDisclosure (boot ∅)).2.

(** The options of the README's example. *)
Definition demo_opts : Current.TemporaryDisclosureFunctionOpts :=
  {| Current.duration := Some (Num 3000);
     Current.callback := Some {| cb_name := "notify"; cb_throws := false |} |}.

(** A scheduled transition as the two option fields alone describe it:
    timer [h] leaves the pending list, the cell takes [b], and the trace
    grows by the write and the call of [cb]. *)
Definition apply_transition {H} (h : nat) (b : bool) (cb : option Callback) (m : Machine H) : Machine H :=
  {| clock := clock m; running := None; hook := Some b;
     timers := filter (λ u, handle u ≠ h) (timers m);
     next_handle := next_handle m; globals := globals m;
     log := log m ++ transition_trace (clock m) h b cb |}.

(** The three operations of the published variant: each with the closure
    it hands to [setTimeout] and the writes it does during the call. *)
Definition operations (o : Current.TemporaryDisclosureFunctionOpts) : list (JS Current.Closure unit * Current.Closure * list Effect) :=
  [ (Current.openFor o, Current.OpenForTimeout o, [FlagSet true]);
    (Current.openIn o, Current.ActionTimeout true o, []);
    (Current.closeIn o, Current.ActionTimeout false o, []) ].

(** The trace lines of a call made at machine [m]. *)
Definition during_call {H} (m : Machine H) (ws : list Effect) : list Entry :=
  (λ w, {| at_ms := clock m; by_timer := running m; what := w |}) <$> ws.

(** A global scope that, like a browser window, defines [open]. *)
Definition window_globals : gmap string JsVal :=
  {[ "open" := VFunction "window.open" ]}.

(** Two procedures that return normally, to tell callbacks apart. *)
Definition first_cb : Callback := {| cb_name := "first"; cb_throws := false |}.
Definition second_cb : Callback := {| cb_name := "second"; cb_throws := false |}.

(** Pending timers carry pairwise distinct handles, all handed out
    already: so it is on every machine reached from a mount. *)
Definition well_formed {H} (m : Machine H) : Prop :=
  NoDup (handle <$> timers m) ∧ handles_fresh m.

(** The closure of [openFor] read as the closure [closeIn] would have
    registered. *)
Definition as_action (c : Current.Closure) : Current.Closure :=
  match c with
  | Current.OpenForTimeout opts => Current.ActionTimeout false opts
  | Current.ActionTimeout nextState opts => Current.ActionTimeout nextState opts
  end.

(** The trace line of a flag write by timer [h]. *)
Definition write_by (at_ : Z) (h : nat) (b : bool) : Entry :=
  {| at_ms := at_; by_timer := Some h; what := FlagSet b |}.

(** Options whose duration does not fit in 32 bits. *)
Definition overlong_opts : Current.TemporaryDisclosureFunctionOpts :=
  {| Current.duration := Some (Num 2147483648); Current.callback := None |}.

(** An options object written as the README documents it. *)
Definition documented_object : OptionsObject :=
  {| numbers := {[ "duration" := Num 100 ]};
     procedures := {[ "callback" := first_cb ]} |}.

(** The older variant rendered once in a browser window. *)
Definition legacy_mounted : Machine Legacy.Closure :=
  (Legacy.useTemporaryDisclosure (boot window_globals)).2.

(** *** Relating the two variants *)

Definition map_timer {A B} (f : A → B) (t : Timer A) : Timer B :=
  {| handle := handle t; due := due t; handler := f (handler t) |}.

Definition map_machine {A B} (f : A → B) (m : Machine A) : Machine B :=
  {| clock := clock m; running := running m; hook := hook m;
     timers := map_timer f <$> timers m; next_handle := next_handle m;
     globals := globals m; log := log m |}.

Definition map_result {A B R} (f : A → B) (r : (Exn + R) * Machine A) : (Exn + R) * Machine B :=
  (r.1, map_machine f r.2).

(** The renaming of the option fields: [t] is [duration], [callBack] is
    [callback]. *)
Definition rename_opts (o : Legacy.TemporaryDisclosureFunctionOpts) : Current.TemporaryDisclosureFunctionOpts :=
  {| Current.duration := Legacy.t o; Current.callback := Legacy.callBack o |}.

Definition rename_closure (c : Legacy.Closure) : Current.Closure :=
  match c with
  | Legacy.OpenForTimeout o => Current.OpenForTimeout (rename_opts o)
  | Legacy.ActionTimeout b o => Current.ActionTimeout b (rename_opts o)
  end.

Definition unrename_opts (o : Current.TemporaryDisclosureFunctionOpts) : Legacy.TemporaryDisclosureFunctionOpts :=
  {| Legacy.t := Current.duration o; Legacy.callBack := Current.callback o |}.

(** ** The event loop *)

Section HostFacts.

Context {H : Type} (run : H → JS H unit).
Hypothesis run_frame : handler_frame run.

Implicit Types (m : Machine H) (t u : Timer H).


Lemma fire_timers t m :
  timers (fire run t m) = filter (λ u, handle u ≠ handle t) (timers m).
Proof.
  unfold fire.
  destruct (run_frame (handler t) (set_running (Some (handle t)) (remove_timer (handle t) m)))
    as (_ & _ & Ht & _).
  destruct (run _ _) as [r m']. simpl in *.
  destruct r; simpl; exact Ht.
Qed.

Lemma fire_next_handle t m : next_handle (fire run t m) = next_handle m.
Proof.
  unfold fire.
  destruct (run_frame (handler t) (set_running (Some (handle t)) (remove_timer (handle t) m)))
    as (_ & _ & _ & Hn & _).
  destruct (run _ _) as [r m']. simpl in *.
  destruct r; simpl; exact Hn.
Qed.

Lemma fire_running t m : running (fire run t m) = None.
Proof.
  unfold fire. destruct (run _ _) as [r m']. reflexivity.
Qed.

(** Everything a firing timer adds to the trace carries its handle and the
    time of the firing. *)
Lemma fire_log t m :
  ∃ new, log (fire run t m) = log m ++ new ∧
         Forall (λ e, at_ms e = clock m ∧ by_timer e = Some (handle t)) new.
Proof.
  unfold fire.
  destruct (run_frame (handler t) (set_running (Some (handle t)) (remove_timer (handle t) m)))
    as (Hc & Hr & _ & _ & new & Hl & Hnew).
  destruct (run _ _) as [r m']. simpl in *.
  destruct r as [e|[]]; simpl.
  - exists (new ++ [{| at_ms := clock m'; by_timer := running m'; what := Uncaught e |}]).
    rewrite Hl, app_assoc. split; [reflexivity|].
    apply Forall_app. split; [exact Hnew|].
    constructor; [|constructor]. simpl. auto.
  - exists new. auto.
Qed.



Lemma step_handles_fresh m m' : step run m m' → handles_fresh m → handles_fresh m'.
Proof.
  unfold handles_fresh.
  intros [m0 dt Hdt|m0 t _ _ _] Hf; simpl; [exact Hf|].
  rewrite fire_timers, fire_next_handle.
  rewrite Forall_forall in *. intros u Hu.
  apply list_elem_of_filter in Hu as [_ Hu]. auto.
Qed.



(** *** The punctual schedule *)

Lemma precedes_spec t u :
  precedes t u = true ↔
  (due t < due u)%Z ∨ (due t = due u ∧ handle t ≤ handle u).
Proof.
  unfold precedes.
  rewrite orb_true_iff, andb_true_iff, Z.ltb_lt, Z.eqb_eq, Nat.leb_le.
  reflexivity.
Qed.

Lemma precedes_total t u : precedes t u = false → precedes u t = true.
Proof.
  intros Hf. apply precedes_spec.
  destruct (precedes t u) eqn:E; [discriminate|].
  apply not_true_iff_false in E. rewrite precedes_spec in E. lia.
Qed.

Lemma precedes_trans t u v :
  precedes t u = true → precedes u v = true → precedes t v = true.
Proof. rewrite !precedes_spec. lia. Qed.

Lemma pick_None (ts : list (Timer H)) : pick ts = None → ts = [].
Proof.
  destruct ts as [|t rest]; [reflexivity|]. simpl.
  destruct (pick rest) as [u|]; [destruct (precedes t u)|]; discriminate.
Qed.

Lemma pick_elem (ts : list (Timer H)) t : pick ts = Some t → t ∈ ts.
Proof.
  revert t. induction ts as [|a rest IH]; intros t; simpl; [discriminate|].
  destruct (pick rest) as [u|] eqn:E.
  - destruct (precedes a u); intros [= <-].
    + apply list_elem_of_here.
    + apply list_elem_of_further, IH. reflexivity.
  - intros [= <-]. apply list_elem_of_here.
Qed.

Lemma pick_first (ts : list (Timer H)) t :
  pick ts = Some t → Forall (λ u, precedes t u = true) ts.
Proof.
  revert t. induction ts as [|a rest IH]; intros t; simpl; [constructor|].
  destruct (pick rest) as [u|] eqn:E.
  - specialize (IH u eq_refl).
    destruct (precedes a u) eqn:Hau; intros [= <-].
    + constructor.
      * apply precedes_spec. lia.
      * eapply Forall_impl; [exact IH|]. simpl. intros v Huv.
        eapply precedes_trans; eassumption.
    + constructor; [|exact IH]. apply precedes_total. exact Hau.
  - intros [= <-]. apply pick_None in E. subst rest.
    constructor; [|constructor]. apply precedes_spec. lia.
Qed.

Lemma wait_until_wait (T : Z) m :
  wait_until T m = wait (Z.max (clock m) T - clock m) m.
Proof.
  unfold wait_until, wait. f_equal. lia.
Qed.

Lemma wait_until_steps (T : Z) m : steps run m (wait_until T m).
Proof.
  rewrite wait_until_wait. apply rtc_once. constructor. lia.
Qed.

Lemma run_loop_steps (fuel : nat) (T : Z) m : steps run m (run_loop run fuel T m).
Proof.
  revert m. induction fuel as [|fuel IH]; intros m; simpl; [apply rtc_refl|].
  destruct (pick (timers m)) as [t|] eqn:E; [|apply rtc_refl].
  destruct (due t <=? T)%Z; [|apply rtc_refl].
  eapply rtc_trans; [apply (wait_until_steps (due t))|].
  eapply rtc_l; [|apply IH].
  apply step_fire.
  - simpl. apply pick_elem. exact E.
  - simpl. lia.
  - simpl. apply pick_first. exact E.
Qed.

(** The punctual schedule is one of the runs the loop allows. *)
Lemma run_until_steps (T : Z) m : steps run m (run_until run T m).
Proof.
  unfold run_until.
  eapply rtc_trans; [apply run_loop_steps|apply wait_until_steps].
Qed.

(** Two pending timers, the second of which goes first: in every run the
    first is still pending for as long as the second is. *)
Lemma steps_pair_order t u m m' :
  precedes t u = false →
  handle t ≠ handle u →
  timers m = [t; u] ∨ timers m = [t] ∨ timers m = [] →
  steps run m m' →
  timers m' = [t; u] ∨ timers m' = [t] ∨ timers m' = [].
Proof.
  intros Htu Hne Hm Hsteps. revert Hm.
  induction Hsteps as [m|m1 m2 m3 Hs _ IH]; intros Hm; [exact Hm|].
  apply IH. destruct Hs as [m0 dt Hdt|m0 v Hin _ Hfirst]; [exact Hm|].
  rewrite fire_timers.
  destruct Hm as [Hm|[Hm|Hm]]; rewrite Hm in *.
  - apply elem_of_cons in Hin as [->|Hin].
    + exfalso. inversion Hfirst as [|? ? _ Hrest]; subst.
      inversion Hrest as [|? ? Hu _]; subst. congruence.
    + apply list_elem_of_singleton in Hin as ->.
      right; left.
      rewrite filter_cons_True by exact Hne.
      rewrite filter_cons_False by (intros Hx; apply Hx; reflexivity).
      reflexivity.
  - apply list_elem_of_singleton in Hin as ->.
    right; right.
    rewrite filter_cons_False by (intros Hx; apply Hx; reflexivity).
    reflexivity.
  - apply elem_of_nil in Hin. destruct Hin.
Qed.

Lemma run_loop_fire (fuel : nat) (T : Z) m t :
  pick (timers m) = Some t →
  (due t ≤ T)%Z →
  run_loop run (S fuel) T m = run_loop run fuel T (fire run t (wait_until (due t) m)).
Proof.
  intros Hp HT. cbn [run_loop]. rewrite Hp.
  rewrite (proj2 (Z.leb_le _ _) HT). reflexivity.
Qed.

Lemma run_loop_stop (fuel : nat) (T : Z) m t :
  pick (timers m) = Some t →
  (T < due t)%Z →
  run_loop run fuel T m = m.
Proof.
  intros Hp HT. destruct fuel as [|fuel]; [reflexivity|].
  cbn [run_loop]. rewrite Hp.
  rewrite (proj2 (Z.leb_gt _ _) HT). reflexivity.
Qed.

Lemma run_loop_idle (fuel : nat) (T : Z) m :
  timers m = [] → run_loop run fuel T m = m.
Proof.
  intros Hn. destruct fuel as [|fuel]; [reflexivity|].
  cbn [run_loop]. rewrite Hn. reflexivity.
Qed.

Lemma pick_pair (t u : Timer H) :
  pick [t; u] = Some (if precedes t u then t else u).
Proof. cbn [pick]. destruct (precedes t u); reflexivity. Qed.

Lemma filter_handle_shorter (ts : list (Timer H)) t :
  t ∈ ts → length (filter (λ u, handle u ≠ handle t) ts) < length ts.
Proof.
  induction 1 as [t rest|t a rest _ IH].
  - rewrite filter_cons_False by (intros Hne; apply Hne; reflexivity).
    simpl. pose proof (length_filter (λ u, handle u ≠ handle t) rest). lia.
  - simpl in *. destruct (decide (handle a ≠ handle t)).
    + rewrite filter_cons_True by assumption. simpl. lia.
    + rewrite filter_cons_False by assumption. lia.
Qed.

Lemma run_loop_drained (fuel : nat) (T : Z) m :
  length (timers m) ≤ fuel →
  Forall (λ t, (T < due t)%Z) (timers (run_loop run fuel T m)).
Proof.
  revert m. induction fuel as [|fuel IH]; intros m Hlen; simpl.
  - destruct (timers m); [constructor|simpl in Hlen; lia].
  - destruct (pick (timers m)) as [t|] eqn:E.
    + destruct (Z.leb_spec (due t) T) as [Hle|Hgt].
      * apply IH. rewrite fire_timers. simpl.
        pose proof (filter_handle_shorter _ _ (pick_elem _ _ E)). lia.
      * eapply Forall_impl; [apply pick_first, E|]. simpl.
        intros u Hu. apply precedes_spec in Hu. lia.
    + apply pick_None in E. rewrite E. constructor.
Qed.

(** The loop needs no more rounds than there are pending timers: after
    [run_until T] nothing that was due by [T] is still pending. *)
Lemma run_until_drained (T : Z) m :
  Forall (λ t, (T < due t)%Z) (timers (run_until run T m)).
Proof.
  unfold run_until. simpl. apply run_loop_drained. lia.
Qed.

Lemma run_until_clock (T : Z) m : (T ≤ clock (run_until run T m))%Z.
Proof. unfold run_until. simpl. lia. Qed.

End HostFacts.

(** ** The published variant on the event loop *)

Section CurrentFacts.

Import Current.

Implicit Types (o : TemporaryDisclosureFunctionOpts) (m : Machine Closure).

Lemma run_eq (c : Closure) m :
  run c m =
  (match completion c with
   | Some cb => if cb_throws cb then inl (CallbackThrew cb) else inr tt
   | None => inr tt
   end,
   {| clock := clock m; running := running m; hook := Some (written c);
      timers := timers m; next_handle := next_handle m; globals := globals m;
      log := log m ++
             {| at_ms := clock m; by_timer := running m; what := FlagSet (written c) |} ::
             match completion c with
             | Some cb => [{| at_ms := clock m; by_timer := running m; what := Invoked cb |}]
             | None => []
             end |}).
Proof.
  destruct c as [o|b o]; destruct o as [d [cb|]]; simpl;
    unfold bind, setIsOpen, invoke, ret, emit, set_hook; simpl;
    rewrite <- ?app_assoc; reflexivity.
Qed.

Lemma run_frame : handler_frame run.
Proof.
  intros c m. rewrite run_eq. simpl. repeat split.
  eexists. split; [reflexivity|].
  destruct (completion c); repeat constructor.
Qed.

(** Firing a timer of the hook: the write, then the callback. *)
Lemma fire_eq (t : Timer Closure) m :
  fire run t m =
  {| clock := clock m; running := None; hook := Some (written (handler t));
     timers := filter (λ u, handle u ≠ handle t) (timers m);
     next_handle := next_handle m; globals := globals m;
     log := log m ++ transition_trace (clock m) (handle t)
                       (written (handler t)) (completion (handler t)) |}.
Proof.
  unfold fire. rewrite run_eq. simpl. unfold transition_trace.
  destruct (completion (handler t)) as [cb|]; [destruct (cb_throws cb)|];
    unfold end_task, emit, set_running; simpl; rewrite <- ?app_assoc; reflexivity.
Qed.

Lemma openFor_eq o m :
  openFor o m =
  (inr tt,
   {| clock := clock m; running := running m; hook := Some true;
      timers := timers m ++ [registered (OpenForTimeout o) (duration o) m];
      next_handle := S (next_handle m); globals := globals m;
      log := log m ++ [{| at_ms := clock m; by_timer := running m; what := FlagSet true |}] |}).
Proof. reflexivity. Qed.

Lemma action_eq (nextState : bool) o m :
  action nextState o m =
  (inr tt,
   {| clock := clock m; running := running m; hook := hook m;
      timers := timers m ++ [registered (ActionTimeout nextState o) (duration o) m];
      next_handle := S (next_handle m); globals := globals m;
      log := log m |}).
Proof. reflexivity. Qed.

(** With nothing else pending, the punctual schedule fires a registered
    timer exactly when it is due. *)
Lemma run_until_single (t : Timer Closure) (T : Z) m :
  timers m = [t] →
  (clock m ≤ due t)%Z →
  (due t ≤ T)%Z →
  run_until run T m =
  {| clock := T; running := None; hook := Some (written (handler t));
     timers := []; next_handle := next_handle m; globals := globals m;
     log := log m ++ transition_trace (due t) (handle t)
                       (written (handler t)) (completion (handler t)) |}.
Proof.
  intros Ht Hc HT. unfold run_until. rewrite Ht.
  cbn [length run_loop]. rewrite Ht. cbn [pick].
  rewrite (proj2 (Z.leb_le _ _) HT).
  rewrite fire_eq. simpl. rewrite Ht.
  rewrite filter_cons_False by (intros Hne; apply Hne; reflexivity).
  unfold wait_until. simpl.
  replace (Z.max (clock m) (due t)) with (due t) by lia.
  unfold set_clock. simpl. f_equal. lia.
Qed.

Lemma run_until_early (t : Timer Closure) (T : Z) m :
  timers m = [t] →
  (T < due t)%Z →
  run_until run T m = wait_until T m.
Proof.
  intros Ht HT. unfold run_until. rewrite Ht.
  cbn [length run_loop]. rewrite Ht. cbn [pick].
  rewrite (proj2 (Z.leb_gt _ _) HT). reflexivity.
Qed.


Lemma timeout_of_nonneg (n : JsNumber) : (0 ≤ timeout_of n)%Z.
Proof.
  destruct n as [|z]; simpl; [lia|].
  destruct (TIMEOUT_MAX <? z)%Z; lia.
Qed.

Lemma delay_of_duration (d : Z) :
  (0 ≤ d)%Z → (d ≤ TIMEOUT_MAX)%Z →
  timeout_of (or_number (Some (Num d)) (Num 0)) = d.
Proof.
  intros Hd Hmax. cbn [or_number truthy_number].
  destruct (Z.eqb_spec d 0) as [->|Hne]; cbn [negb timeout_of]; [reflexivity|].
  rewrite (proj2 (Z.ltb_ge _ _) Hmax). lia.
Qed.


Lemma falsy_duration_cases (d : option JsNumber) :
  falsy_duration d = true ↔ d = None ∨ d = Some NaN ∨ d = Some (Num 0).
Proof.
  destruct d as [[|z]|]; simpl.
  - split; auto.
  - rewrite negb_involutive, Z.eqb_eq. split.
    + intros ->. auto.
    + intros [Hd|[Hd|Hd]]; congruence.
  - split; auto.
Qed.

Lemma falsy_delay (d : option JsNumber) :
  falsy_duration d = true → timeout_of (or_number d (Num 0)) = 0%Z.
Proof.
  intros Hd. apply falsy_duration_cases in Hd as [->|[->| ->]]; reflexivity.
Qed.


Lemma fire_apply_transition (t : Timer Closure) m :
  fire run t m =
  apply_transition (handle t) (written (handler t)) (completion (handler t)) m.
Proof. apply fire_eq. Qed.

(** If the cell holds [b] and every pending timer writes [b], the cell
    holds [b] forever. *)
Lemma steps_keep_flag (b : bool) m m' :
  hook m = Some b →
  Forall (λ t, written (handler t) = b) (timers m) →
  steps run m m' →
  hook m' = Some b.
Proof.
  intros Hh Hall Hsteps. revert Hh Hall.
  induction Hsteps as [m|m1 m2 m3 Hs _ IH]; intros Hh Hall; [exact Hh|].
  destruct Hs as [m0 dt Hdt|m0 t Hin _ _].
  - apply IH; assumption.
  - apply IH.
    + rewrite fire_eq. simpl. f_equal.
      apply (proj1 (Forall_forall _ _) Hall t Hin).
    + rewrite fire_eq. simpl. apply Forall_forall. intros u Hu.
      apply list_elem_of_filter in Hu as [_ Hu].
      apply (proj1 (Forall_forall _ _) Hall u Hu).
Qed.

(** Each operation in terms of the table [operations]. *)
Lemma operations_eq o m op c ws :
  (op, c, ws) ∈ operations o →
  op m =
  (inr tt,
   {| clock := clock m; running := running m;
      hook := match ws with [] => hook m | _ => Some true end;
      timers := timers m ++ [registered c (duration o) m];
      next_handle := S (next_handle m); globals := globals m;
      log := log m ++ during_call m ws |}) ∧
  completion c = callback o.
Proof.
  unfold operations. intros Hin.
  apply elem_of_cons in Hin as [[= -> -> ->]|Hin];
    [|apply elem_of_cons in Hin as [[= -> -> ->]|Hin];
      [|apply elem_of_cons in Hin as [[= -> -> ->]|Hin];
        [|apply elem_of_nil in Hin; destruct Hin]]].
  - rewrite openFor_eq. split; reflexivity.
  - unfold openIn. rewrite action_eq. simpl. rewrite app_nil_r. split; reflexivity.
  - unfold closeIn. rewrite action_eq. simpl. rewrite app_nil_r. split; reflexivity.
Qed.

(** Calling an operation keeps the handles in order, so every machine
    reached from a mount by calls and loop moves has fresh handles. *)
Lemma operations_handles_fresh o m op c ws :
  (op, c, ws) ∈ operations o →
  handles_fresh m →
  handles_fresh (op m).2.
Proof.
  intros Hin Hf. destruct (operations_eq o m op c ws Hin) as [Hop _].
  rewrite Hop. unfold handles_fresh in *. cbn [snd timers next_handle].
  apply Forall_app. split.
  - eapply Forall_impl; [exact Hf|]. simpl. intros u Hu. lia.
  - constructor; [simpl; lia|constructor].
Qed.

End CurrentFacts.

(** ** openFor *)

Section OpenFor.

Import Current.




End OpenFor.

(** ** openIn and closeIn *)

Section Action.

Import Current.

(** With nothing else pending, the scheduled write of [action] lands at the
    due time and not before. *)
Lemma action_lands_when_due (nextState : bool) (o : TemporaryDisclosureFunctionOpts) (m : Machine Closure) :
  timers m = [] →
  let tm := registered (ActionTimeout nextState o) (duration o) m in
  (∀ T, (T < due tm)%Z → hook (run_until run T (action nextState o m).2) = hook m) ∧
  (∀ T, (due tm ≤ T)%Z →
        hook (run_until run T (action nextState o m).2) = Some nextState ∧
        log (run_until run T (action nextState o m).2) =
          log m ++ transition_trace (due tm) (handle tm) nextState (callback o)).
Proof.
  intros Hnone tm. subst tm. rewrite action_eq. cbn [snd].
  pose proof (timeout_of_nonneg (or_number (duration o) (Num 0))) as Hpos.
  split; intros T HT.
  - rewrite (run_until_early (registered (ActionTimeout nextState o) (duration o) m)).
    + reflexivity.
    + simpl. rewrite Hnone. reflexivity.
    + exact HT.
  - rewrite (run_until_single (registered (ActionTimeout nextState o) (duration o) m)).
    + split; reflexivity.
    + simpl. rewrite Hnone. reflexivity.
    + simpl. lia.
    + exact HT.
Qed.




End Action.

(** ** The object the hook returns *)

Section Factory.

Lemma current_factory_eq (m : Machine Current.Closure) :
  Current.useTemporaryDisclosure m =
  (inr (<["isOpen" := VBool (default false (hook m))]>
        (<["openIn" := VFunction "openIn"]>
        (<["closeIn" := VFunction "closeIn"]>
        (<["openFor" := VFunction "openFor"]> ∅)))),
   set_hook (Some (default false (hook m))) m).
Proof.
  unfold Current.useTemporaryDisclosure, bind, useState, ret.
  destruct m as [c r [b|] ts n g l]; reflexivity.
Qed.

(** The published variant returns exactly the four documented properties. *)
Lemma current_factory_keys (m : Machine Current.Closure) :
  ∃ obj, (Current.useTemporaryDisclosure m).1 = inr obj ∧
         dom obj = Current.UseTemporaryDisclosureObj ∧
         dom obj = ({[ "isOpen"; "openIn"; "closeIn"; "openFor" ]} : gset string) ∧
         "open" ∉ dom obj.
Proof.
  rewrite current_factory_eq. eexists. split; [reflexivity|].
  rewrite !dom_insert_L, dom_empty_L. repeat split; compute_done.
Qed.

(** C3, on the older variant.  Its return literal lists [open], a name the
    function never declares.  Where the global scope has no [open] the
    hook throws a ReferenceError on every render; where it has one (a
    browser window) the returned object carries a fifth property [open]
    next to the four its own return type declares. *)
Theorem legacy_factory_lists_open (m : Machine Legacy.Closure) :
  ("open" ∉ Legacy.UseTemporaryDisclosureProps) ∧
  (match (Legacy.useTemporaryDisclosure m).1 with
   | inr obj =>
       dom obj = Legacy.UseTemporaryDisclosureProps ∪ {[ "open" ]} ∧
       obj !! "open" = globals m !! "open"
   | inl e => e = ReferenceError "open" ∧ globals m !! "open" = None
   end).
Proof.
  split; [compute_done|].
  unfold Legacy.useTemporaryDisclosure, bind, useState, global, ret.
  destruct (hook m); simpl; destruct (globals m !! "open") as [v|] eqn:E; simpl;
    try (split; reflexivity).
  all: split; [|rewrite lookup_insert_ne by discriminate; rewrite lookup_insert_eq; reflexivity].
  all: rewrite !dom_insert_L, dom_empty_L; compute_done.
Qed.

(** The older variant rendered in a browser window. *)
Example legacy_factory_in_window :
  ∃ obj, (Legacy.useTemporaryDisclosure (boot window_globals)).1 = inr obj ∧
         dom obj = ({[ "isOpen"; "open"; "openIn"; "closeIn"; "openFor" ]} : gset string) ∧
         obj !! "open" = Some (VFunction "window.open").
Proof.
  eexists. split; [reflexivity|]. split.
  - rewrite !dom_insert_L, dom_empty_L. compute_done.
  - rewrite lookup_insert_ne by discriminate. rewrite lookup_insert_eq.
    reflexivity.
Qed.

(** C9.  The first render of a fresh component stores [false] in the cell
    and hands [false] out as [isOpen], registers no timer and writes
    nothing to the trace; as long as no operation is called the cell stays
    [false] however the event loop runs.  The older variant also stores
    [false], and hands [false] out whenever it returns an object. *)
Theorem fresh_instance_is_closed (g : gmap string JsVal) :
  (∃ obj, (Current.useTemporaryDisclosure (boot g)).1 = inr obj ∧
          obj !! "isOpen" = Some (VBool false)) ∧
  hook (Current.useTemporaryDisclosure (boot g)).2 = Some false ∧
  timers (Current.useTemporaryDisclosure (boot g)).2 = [] ∧
  log (Current.useTemporaryDisclosure (boot g)).2 = [] ∧
  (∀ m', steps Current.run (Current.useTemporaryDisclosure (boot g)).2 m' →
         hook m' = Some false) ∧
  hook (Legacy.useTemporaryDisclosure (boot g)).2 = Some false ∧
  (match (Legacy.useTemporaryDisclosure (boot g)).1 with
   | inr obj => obj !! "isOpen" = Some (VBool false)
   | inl _ => True
   end).
Proof.
  rewrite current_factory_eq. cbn [fst snd].
  split. { eexists. split; [reflexivity|]. apply lookup_insert_eq. }
  split; [reflexivity|]. split; [reflexivity|]. split; [reflexivity|].
  split.
  { intros m' Hsteps. eapply steps_keep_flag; [| |exact Hsteps].
    - reflexivity.
    - constructor. }
  unfold Legacy.useTemporaryDisclosure, bind, useState, global, ret. simpl.
  destruct (g !! "open"); simpl; split; reflexivity || exact I.
Qed.

End Factory.

(** ** What the options decide *)

Section Options.

Import Current.

Implicit Types (o : TemporaryDisclosureFunctionOpts) (m : Machine Closure).

(** What each operation registers and what firing it does, in terms of
    the two option fields. *)
Lemma operations_schedule_and_fire o m op c ws :
  (op, c, ws) ∈ operations o →
  timers (op m).2 =
    timers m ++ [{| handle := next_handle m;
                    due := clock m + timeout_of (or_number (duration o) (Num 0));
                    handler := c |}] ∧
  (∀ m', fire run {| handle := next_handle m;
                     due := clock m + timeout_of (or_number (duration o) (Num 0));
                     handler := c |} m' =
         apply_transition (next_handle m) (written c) (callback o) m').
Proof.
  intros Hin.
  destruct (operations_eq o m op c ws Hin) as [Hop Hcb].
  rewrite Hop. cbn [snd].
  split; [reflexivity|].
  intros m'. rewrite fire_apply_transition. simpl. rewrite Hcb. reflexivity.
Qed.

(** C4, as amended.  Given an options object, the three operations of the
    published variant read the delay from its [duration] property and the
    completion procedure from its [callback] property, and nothing else:
    the one timer an operation registers is due
    [timeout_of (duration || 0)] ms after the call, which is [d] ms for an
    integer [duration] [d] with [1 ≤ d ≤ 2147483647]; firing it is the
    transition given by the operation's target value and [callback]; and
    two objects with the same [duration] and [callback] make every
    operation behave the same.  The operations of the older variant read
    [t] and [callBack] instead: on any object they do what the published
    ones do on the options whose duration is the object's [t] and whose
    callback is its [callBack], and two objects with the same [t] and
    [callBack] make them behave the same, whatever their [duration] and
    [callback]. *)
Theorem option_fields_read_by_each_variant (obj : OptionsObject) m (ml : Machine Legacy.Closure) (i : nat) op c ws :
  operations (of_object obj) !! i = Some (op, c, ws) →
  let delay := timeout_of (or_number (numbers obj !! "duration") (Num 0)) in
  let tm := {| handle := next_handle m; due := clock m + delay; handler := c |} in
  timers (op m).2 = timers m ++ [tm] ∧
  (∀ d, numbers obj !! "duration" = Some (Num d) →
        (1 ≤ d)%Z → (d ≤ TIMEOUT_MAX)%Z → delay = d) ∧
  (∀ m', fire run tm m' =
         apply_transition (next_handle m) (written c) (procedures obj !! "callback") m') ∧
  (∀ obj' op' c' ws',
     numbers obj' !! "duration" = numbers obj !! "duration" →
     procedures obj' !! "callback" = procedures obj !! "callback" →
     operations (of_object obj') !! i = Some (op', c', ws') →
     op' m = op m ∧ c' = c) ∧
  (map_result rename_closure (Legacy.openFor (Legacy.of_object obj) ml) =
     openFor {| duration := numbers obj !! "t"; callback := procedures obj !! "callBack" |}
             (map_machine rename_closure ml) ∧
   map_result rename_closure (Legacy.openIn (Legacy.of_object obj) ml) =
     openIn {| duration := numbers obj !! "t"; callback := procedures obj !! "callBack" |}
            (map_machine rename_closure ml) ∧
   map_result rename_closure (Legacy.closeIn (Legacy.of_object obj) ml) =
     closeIn {| duration := numbers obj !! "t"; callback := procedures obj !! "callBack" |}
             (map_machine rename_closure ml)) ∧
  (∀ obj',
     numbers obj' !! "t" = numbers obj !! "t" →
     procedures obj' !! "callBack" = procedures obj !! "callBack" →
     Legacy.openFor (Legacy.of_object obj') ml = Legacy.openFor (Legacy.of_object obj) ml ∧
     Legacy.openIn (Legacy.of_object obj') ml = Legacy.openIn (Legacy.of_object obj) ml ∧
     Legacy.closeIn (Legacy.of_object obj') ml = Legacy.closeIn (Legacy.of_object obj) ml).
Proof.
  intros Hi delay tm. subst delay tm.
  pose proof (list_elem_of_lookup_2 _ _ _ Hi) as Hin.
  destruct (operations_schedule_and_fire (of_object obj) m op c ws Hin) as [Htimers Hfire].
  cbn [of_object duration callback] in Htimers, Hfire.
  split; [exact Htimers|].
  split. { intros d Hd Hpos Hmax. rewrite Hd. apply delay_of_duration; [lia|exact Hmax]. }
  split; [exact Hfire|].
  split.
  { intros obj' op' c' ws' Hd Hc Hi'.
    unfold of_object in Hi'. rewrite Hd, Hc in Hi'. fold (of_object obj) in Hi'.
    rewrite Hi in Hi'. injection Hi' as <- <- <-. split; reflexivity. }
  split.
  { repeat split; unfold map_result; simpl; unfold map_machine; simpl;
      rewrite fmap_app; reflexivity. }
  intros obj' Ht Hc. unfold Legacy.of_object. rewrite Ht, Hc.
  repeat split; reflexivity.
Qed.

(** The README's object on a freshly mounted component of the published
    variant: [openFor] registers its timer 100 ms ahead. *)
Lemma option_fields_read_by_each_variant_witness :
  operations (of_object documented_object) !! 0 =
    Some (openFor (of_object documented_object),
          OpenForTimeout (of_object documented_object), [FlagSet true]) ∧
  timers (openFor (of_object documented_object) mounted).2 =
    [{| handle := 0; due := 100; handler := OpenForTimeout (of_object documented_object) |}].
Proof.
  split; [reflexivity|].
  destruct (option_fields_read_by_each_variant documented_object mounted legacy_mounted 0
              (openFor (of_object documented_object))
              (OpenForTimeout (of_object documented_object)) [FlagSet true] eq_refl)
    as (Htimers & Hdelay & _).
  rewrite Htimers. rewrite (Hdelay 100%Z); [reflexivity|reflexivity|lia|unfold TIMEOUT_MAX; lia].
Defined.

(** C4 as first stated fails on the older variant: given an object with
    [duration] 100 and a [callback], its [openFor] registers the timer with
    delay 0, not 100, and the run up to 100 ms shows the two flag writes
    and no invocation. *)
Lemma legacy_ignores_duration_and_callback :
  numbers documented_object !! "duration" = Some (Num 100) ∧
  procedures documented_object !! "callback" = Some first_cb ∧
  timers (Legacy.openFor (Legacy.of_object documented_object) legacy_mounted).2 =
    [{| handle := 0; due := 0;
        handler := Legacy.OpenForTimeout {| Legacy.t := None; Legacy.callBack := None |} |}] ∧
  (0 ≠ clock legacy_mounted +
       timeout_of (or_number (numbers documented_object !! "duration") (Num 0)))%Z ∧
  log (run_until Legacy.run 100
         (Legacy.openFor (Legacy.of_object documented_object) legacy_mounted).2) =
    [ {| at_ms := 0; by_timer := None; what := FlagSet true |};
      {| at_ms := 0; by_timer := Some 0; what := FlagSet false |} ].
Proof.
  split; [reflexivity|]. split; [reflexivity|]. split; [reflexivity|].
  split; [vm_compute; discriminate|]. vm_compute. reflexivity.
Qed.

(** C6.  With no [callback] in the options, each operation returns
    normally and its own trace lines are flag writes only; the handler it
    registered returns normally, and firing it adds exactly one line to the
    trace, the flag write: nothing is invoked and nothing is thrown. *)
Theorem no_callback_nothing_invoked o m op c ws :
  callback o = None →
  (op, c, ws) ∈ operations o →
  (op m).1 = inr tt ∧
  log (op m).2 = log m ++ during_call m ws ∧
  Forall (λ e, is_invocation e = false ∧ is_uncaught e = false) (during_call m ws) ∧
  (∀ m', (run c m').1 = inr tt ∧
         log (fire run (registered c (duration o) m) m') =
           log m' ++ [{| at_ms := clock m'; by_timer := Some (next_handle m);
                         what := FlagSet (written c) |}]).
Proof.
  intros Hnone Hin.
  destruct (operations_eq o m op c ws Hin) as [Hop Hcb].
  rewrite Hop. cbn [fst snd].
  split; [reflexivity|]. split; [reflexivity|].
  split.
  { unfold operations in Hin.
    apply elem_of_cons in Hin as [[= -> -> ->]|Hin];
      [|apply elem_of_cons in Hin as [[= -> -> ->]|Hin];
        [|apply elem_of_cons in Hin as [[= -> -> ->]|Hin];
          [|apply elem_of_nil in Hin; destruct Hin]]];
      repeat constructor. }
  intros m'. rewrite run_eq, fire_eq. simpl. rewrite Hcb, Hnone.
  split; reflexivity.
Qed.

Lemma no_callback_nothing_invoked_witness :
  callback {| duration := Some (Num 5); callback := None |} = None ∧
  (closeIn {| duration := Some (Num 5); callback := None |} mounted).1 = inr tt ∧
  log (run_until run 5 (closeIn {| duration := Some (Num 5); callback := None |} mounted).2) =
    [{| at_ms := 5; by_timer := Some 0; what := FlagSet false |}].
Proof.
  split; [reflexivity|].
  destruct (no_callback_nothing_invoked
              {| duration := Some (Num 5); callback := None |} mounted
              (closeIn {| duration := Some (Num 5); callback := None |})
              (ActionTimeout false {| duration := Some (Num 5); callback := None |}) []
              eq_refl) as (Hret & _).
  - unfold operations. apply list_elem_of_further, list_elem_of_further, list_elem_of_here.
  - split; [exact Hret|]. vm_compute. reflexivity.
Defined.

(** C7.  When [o.duration] is omitted, [NaN] or [0], each operation
    registers its timer with delay 0: due at the very time of the call.
    The call itself does not apply the scheduled write (the timer is
    pending when the call returns, the cell and the trace show the call's
    own writes only).  If nothing else is pending the loop may fire the
    timer at once, and the punctual schedule applies the transition
    without the clock moving. *)
Theorem falsy_duration_next_tick o m op c ws :
  duration o = None ∨ duration o = Some NaN ∨ duration o = Some (Num 0) →
  (op, c, ws) ∈ operations o →
  let tm := {| handle := next_handle m; due := clock m; handler := c |} in
  timeout_of (or_number (duration o) (Num 0)) = 0%Z ∧
  timers (op m).2 = timers m ++ [tm] ∧
  hook (op m).2 = match ws with [] => hook m | _ => Some true end ∧
  log (op m).2 = log m ++ during_call m ws ∧
  (timers m = [] →
   step run (op m).2 (fire run tm (op m).2) ∧
   clock (run_until run (clock m) (op m).2) = clock m ∧
   hook (run_until run (clock m) (op m).2) = Some (written c) ∧
   log (run_until run (clock m) (op m).2) =
     (log m ++ during_call m ws) ++
     transition_trace (clock m) (next_handle m) (written c) (callback o)).
Proof.
  intros Hfalsy Hin tm. subst tm.
  apply falsy_duration_cases in Hfalsy.
  pose proof (falsy_delay _ Hfalsy) as Hzero.
  destruct (operations_eq o m op c ws Hin) as [Hop Hcb].
  rewrite Hop. cbn [snd]. unfold registered. rewrite Hzero, Z.add_0_r.
  split; [reflexivity|]. split; [reflexivity|]. split; [reflexivity|].
  split; [reflexivity|].
  intros Hnone. rewrite Hnone. cbn [app]. split.
  - apply step_fire; simpl.
    + apply list_elem_of_here.
    + lia.
    + constructor; [|constructor]. apply precedes_spec. simpl. lia.
  - rewrite (run_until_single {| handle := next_handle m; due := clock m; handler := c |});
      simpl; [|reflexivity|lia|lia].
    rewrite Hcb. repeat split; reflexivity.
Qed.

Lemma falsy_duration_next_tick_witness :
  (duration {| duration := Some NaN; callback := None |} = None ∨
   duration {| duration := Some NaN; callback := None |} = Some NaN ∨
   duration {| duration := Some NaN; callback := None |} = Some (Num 0)) ∧
  hook (openIn {| duration := Some NaN; callback := None |} mounted).2 = Some false ∧
  hook (run_until run 0 (openIn {| duration := Some NaN; callback := None |} mounted).2) = Some true.
Proof.
  assert (Hd : duration {| duration := Some NaN; callback := None |} = None ∨
               duration {| duration := Some NaN; callback := None |} = Some NaN ∨
               duration {| duration := Some NaN; callback := None |} = Some (Num 0))
    by (right; left; reflexivity).
  split; [exact Hd|].
  destruct (falsy_duration_next_tick
              {| duration := Some NaN; callback := None |} mounted
              (openIn {| duration := Some NaN; callback := None |})
              (ActionTimeout true {| duration := Some NaN; callback := None |}) [] Hd)
    as (_ & _ & Hh & _ & Hrun).
  - unfold operations. apply list_elem_of_further, list_elem_of_here.
  - split; [exact Hh|]. destruct (Hrun eq_refl) as (_ & _ & Hh' & _). exact Hh'.
Defined.

End Options.

(** ** Calls that overlap *)

Section Overlap.

Import Current.

(** Whatever the cell holds, a firing timer overwrites it. *)
Lemma fire_writes_unconditionally (t : Timer Closure) (m : Machine Closure) :
  hook (fire run t m) = Some (written (handler t)).
Proof. rewrite fire_eq. reflexivity. Qed.

(** C5.  [openFor] with duration 100 and then, at the same instant,
    [closeIn] with duration 10, with nothing else pending: the cell is
    [true] when the calls return and both timers are pending.  On the
    punctual schedule the cell stays [true] before 10 ms; at 10 ms the
    timer of [closeIn] (registered second) writes [false] and runs its
    callback, and the timer of [openFor] is still pending; at 100 ms that
    one writes [false] again and runs its callback.  In every run of the
    loop, punctual or late, the timer of [openFor] is pending for as long
    as the timer of [closeIn] is.  Every firing timer writes the cell
    whatever it held. *)
Theorem overlapping_calls_fire_by_delay (cbA cbB : option Callback) (m : Machine Closure) :
  timers m = [] →
  let o1 := {| duration := Some (Num 100); callback := cbA |} in
  let o2 := {| duration := Some (Num 10); callback := cbB |} in
  let m2 := (closeIn o2 (openFor o1 m).2).2 in
  let tA := {| handle := next_handle m; due := clock m + 100; handler := OpenForTimeout o1 |} in
  let tB := {| handle := S (next_handle m); due := clock m + 10; handler := ActionTimeout false o2 |} in
  let opened := {| at_ms := clock m; by_timer := running m; what := FlagSet true |} in
  hook m2 = Some true ∧
  log m2 = log m ++ [opened] ∧
  timers m2 = [tA; tB] ∧
  (∀ T, (T < clock m + 10)%Z →
        hook (run_until run T m2) = Some true ∧
        log (run_until run T m2) = log m ++ [opened] ∧
        timers (run_until run T m2) = [tA; tB]) ∧
  (∀ T, (clock m + 10 ≤ T)%Z → (T < clock m + 100)%Z →
        hook (run_until run T m2) = Some false ∧
        log (run_until run T m2) =
          (log m ++ [opened]) ++
          transition_trace (clock m + 10) (S (next_handle m)) false cbB ∧
        timers (run_until run T m2) = [tA]) ∧
  (∀ T, (clock m + 100 ≤ T)%Z →
        hook (run_until run T m2) = Some false ∧
        log (run_until run T m2) =
          ((log m ++ [opened]) ++
           transition_trace (clock m + 10) (S (next_handle m)) false cbB) ++
          transition_trace (clock m + 100) (next_handle m) false cbA ∧
        timers (run_until run T m2) = []) ∧
  (∀ m', steps run m2 m' → tB ∈ timers m' → tA ∈ timers m') ∧
  (∀ (t : Timer Closure) m', hook (fire run t m') = Some (written (handler t))).
Proof.
  intros Hnone o1 o2 m2 tA tB opened.
  assert (Hm2 : m2 =
    {| clock := clock m; running := running m; hook := Some true;
       timers := [tA; tB]; next_handle := S (S (next_handle m));
       globals := globals m; log := log m ++ [opened] |}).
  { subst m2. unfold closeIn. rewrite openFor_eq. cbn [snd]. rewrite action_eq.
    cbn [snd]. simpl. rewrite Hnone. reflexivity. }
  assert (HAB : precedes tA tB = false).
  { apply not_true_iff_false. rewrite precedes_spec. simpl. lia. }
  assert (Hpick : pick [tA; tB] = Some tB) by (rewrite pick_pair, HAB; reflexivity).
  assert (HfA : filter (λ u : Timer Closure, handle u ≠ handle tB) [tA; tB] = [tA]).
  { rewrite filter_cons_True by (simpl; lia).
    rewrite filter_cons_False by (intros Hne; apply Hne; reflexivity).
    reflexivity. }
  assert (HfB : filter (λ u : Timer Closure, handle u ≠ handle tA) [tA] = []).
  { rewrite filter_cons_False by (intros Hne; apply Hne; reflexivity). reflexivity. }
  rewrite Hm2. clear Hm2 m2.
  split; [reflexivity|]. split; [reflexivity|]. split; [reflexivity|].
  split.
  { intros T HT. unfold run_until. cbn [timers length].
    rewrite (run_loop_stop run 2 T _ tB); [|exact Hpick|simpl; lia].
    repeat split; reflexivity. }
  split.
  { intros T HT1 HT2. unfold run_until. cbn [timers length].
    rewrite (run_loop_fire run 1 T _ tB); [|exact Hpick|simpl; lia].
    rewrite fire_eq. cbn [timers wait_until set_clock].
    rewrite HfA.
    rewrite (run_loop_stop run 1 T _ tA); [|reflexivity|simpl; lia].
    cbn [wait_until set_clock clock running hook timers next_handle globals log
         handle due handler written completion callback tA tB].
    replace (Z.max (clock m) (clock m + 10)) with (clock m + 10)%Z by lia.
    repeat split; reflexivity. }
  split.
  { intros T HT. unfold run_until. cbn [timers length].
    rewrite (run_loop_fire run 1 T _ tB); [|exact Hpick|simpl; lia].
    rewrite fire_eq. cbn [timers wait_until set_clock].
    rewrite HfA.
    rewrite (run_loop_fire run 0 T _ tA); [|reflexivity|simpl; lia].
    rewrite fire_eq. cbn [timers wait_until set_clock].
    rewrite HfB. cbn [run_loop].
    cbn [wait_until set_clock clock running hook timers next_handle globals log
         handle due handler written completion callback tA tB].
    replace (Z.max (clock m) (clock m + 10)) with (clock m + 10)%Z by lia.
    replace (Z.max (clock m + 10) (clock m + 100)) with (clock m + 100)%Z by lia.
    repeat split; reflexivity. }
  split.
  { intros m' Hsteps HB.
    eapply (steps_pair_order run run_frame tA tB) in Hsteps;
      [|exact HAB|simpl; lia|left; reflexivity].
    destruct Hsteps as [Hm|[Hm|Hm]]; rewrite Hm in *.
    - apply list_elem_of_here.
    - apply list_elem_of_here.
    - apply elem_of_nil in HB. destruct HB. }
  apply fire_writes_unconditionally.
Qed.

(** On a freshly mounted component, with a callback on each call: the
    callback of [closeIn] runs at 10 ms, the one of [openFor] at 100 ms. *)
Lemma overlapping_calls_fire_by_delay_witness :
  timers mounted = [] ∧
  log (run_until run 100
         (closeIn {| duration := Some (Num 10); callback := Some second_cb |}
            (openFor {| duration := Some (Num 100); callback := Some first_cb |} mounted).2).2) =
  [ {| at_ms := 0; by_timer := None; what := FlagSet true |};
    {| at_ms := 10; by_timer := Some 1; what := FlagSet false |};
    {| at_ms := 10; by_timer := Some 1; what := Invoked second_cb |};
    {| at_ms := 100; by_timer := Some 0; what := FlagSet false |};
    {| at_ms := 100; by_timer := Some 0; what := Invoked first_cb |} ].
Proof.
  split; [reflexivity|].
  destruct (overlapping_calls_fire_by_delay (Some first_cb) (Some second_cb) mounted eq_refl)
    as (_ & _ & _ & _ & _ & Hlate & _ & _).
  destruct (Hlate 100%Z) as (_ & Hlog & _); [simpl; lia|].
  exact Hlog.
Defined.

End Overlap.

(** ** closeIn on a closed instance *)

Section CloseIn.

Import Current.

(** C8.  [closeIn o] on a machine whose cell holds [false]: the cell holds
    [false] when the call returns; if every pending timer writes [false]
    (in particular if none is pending) it holds [false] in every state the
    event loop reaches; the registered timer writes [false] whatever the
    cell holds when it fires.  With nothing else pending, on the punctual
    schedule the trace is unchanged before the due time, and from the due
    time on it has grown by the write of [false] and the call of
    [o.callback], both stamped with the due time. *)
Theorem closeIn_when_closed (o : TemporaryDisclosureFunctionOpts) (m : Machine Closure) :
  hook m = Some false →
  let tm := registered (ActionTimeout false o) (duration o) m in
  hook (closeIn o m).2 = Some false ∧
  (Forall (λ t, written (handler t) = false) (timers m) →
   ∀ m', steps run (closeIn o m).2 m' → hook m' = Some false) ∧
  (∀ m', hook (fire run tm m') = Some false) ∧
  (timers m = [] → ∀ T, (T < due tm)%Z →
   log (run_until run T (closeIn o m).2) = log m) ∧
  (timers m = [] → ∀ T, (due tm ≤ T)%Z →
   hook (run_until run T (closeIn o m).2) = Some false ∧
   log (run_until run T (closeIn o m).2) =
     log m ++ transition_trace (due tm) (handle tm) false (callback o) ∧
   ∀ cb, callback o = Some cb →
         {| at_ms := due tm; by_timer := Some (handle tm); what := Invoked cb |}
           ∈ log (run_until run T (closeIn o m).2)).
Proof.
  intros Hclosed tm. subst tm. unfold closeIn.
  split. { rewrite action_eq. exact Hclosed. }
  split.
  { intros Hall m' Hsteps. eapply steps_keep_flag; [| |exact Hsteps].
    - rewrite action_eq. exact Hclosed.
    - rewrite action_eq. cbn [snd timers]. apply Forall_app. split; [exact Hall|].
      constructor; [reflexivity|constructor]. }
  split. { intros m'. apply fire_writes_unconditionally. }
  split.
  { intros Hnone T HT. rewrite action_eq. cbn [snd].
    rewrite (run_until_early (registered (ActionTimeout false o) (duration o) m)).
    - reflexivity.
    - simpl. rewrite Hnone. reflexivity.
    - exact HT. }
  intros Hnone T HT.
  destruct (action_lands_when_due false o m Hnone) as [_ Hdue].
  destruct (Hdue T HT) as [Hh Hl].
  split; [exact Hh|]. split; [exact Hl|].
  intros cb Hcb. rewrite Hl, Hcb. apply elem_of_app. right.
  unfold transition_trace. apply list_elem_of_further, list_elem_of_here.
Qed.

Lemma closeIn_when_closed_witness :
  hook mounted = Some false ∧
  hook (closeIn demo_opts mounted).2 = Some false ∧
  log (run_until run 3000 (closeIn demo_opts mounted).2) =
  [ {| at_ms := 3000; by_timer := Some 0; what := FlagSet false |};
    {| at_ms := 3000; by_timer := Some 0;
       what := Invoked {| cb_name := "notify"; cb_throws := false |} |} ].
Proof.
  split; [reflexivity|].
  destruct (closeIn_when_closed demo_opts mounted eq_refl)
    as (Hnow & _ & _ & _ & Hdue).
  split; [exact Hnow|].
  destruct (Hdue eq_refl 3000%Z) as (_ & Hlog & _); [simpl; lia|].
  exact Hlog.
Defined.

End CloseIn.

(** ** The two variants compared *)

Section Simulation.

Context {A B : Type} (f : A → B).
Context (runA : A → JS A unit) (runB : B → JS B unit).
Hypothesis run_commutes :
  ∀ c m, map_result f (runA c m) = runB (f c) (map_machine f m).

Lemma map_filter_handle (h : nat) (ts : list (Timer A)) :
  map_timer f <$> filter (λ t, handle t ≠ h) ts =
  filter (λ t, handle t ≠ h) (map_timer f <$> ts).
Proof.
  induction ts as [|t ts IH]; [reflexivity|].
  destruct (decide (handle t ≠ h)) as [Hne|Heq].
  - rewrite filter_cons_True by exact Hne. rewrite !fmap_cons.
    rewrite filter_cons_True by exact Hne. rewrite IH. reflexivity.
  - rewrite filter_cons_False by exact Heq. rewrite fmap_cons.
    rewrite filter_cons_False by exact Heq. exact IH.
Qed.

Lemma map_fire (t : Timer A) (m : Machine A) :
  map_machine f (fire runA t m) = fire runB (map_timer f t) (map_machine f m).
Proof.
  unfold fire.
  pose proof (run_commutes (handler t)
                (set_running (Some (handle t)) (remove_timer (handle t) m))) as Hc.
  replace (map_machine f (set_running (Some (handle t)) (remove_timer (handle t) m)))
    with (set_running (Some (handle (map_timer f t)))
            (remove_timer (handle (map_timer f t)) (map_machine f m))) in Hc.
  - cbn [handler map_timer]. rewrite <- Hc.
    destruct (runA (handler t) _) as [r m']. unfold map_result. cbn [fst snd].
    destruct r as [e|u]; reflexivity.
  - unfold set_running, remove_timer, set_timers, map_machine. simpl.
    rewrite map_filter_handle. reflexivity.
Qed.

Lemma precedes_map (t u : Timer A) :
  precedes (map_timer f t) (map_timer f u) = precedes t u.
Proof. reflexivity. Qed.

Lemma map_pick (ts : list (Timer A)) :
  pick (map_timer f <$> ts) = map_timer f <$> pick ts.
Proof.
  induction ts as [|t ts IH]; [reflexivity|].
  rewrite fmap_cons. cbn [pick]. rewrite IH.
  destruct (pick ts) as [u|]; simpl; [|reflexivity].
  rewrite precedes_map. destruct (precedes t u); reflexivity.
Qed.

Lemma map_run_loop (fuel : nat) (T : Z) (m : Machine A) :
  map_machine f (run_loop runA fuel T m) = run_loop runB fuel T (map_machine f m).
Proof.
  revert m. induction fuel as [|fuel IH]; intros m; [reflexivity|].
  cbn [run_loop]. cbn [timers map_machine]. rewrite map_pick.
  destruct (pick (timers m)) as [t|]; simpl; [|reflexivity].
  destruct (due t <=? T)%Z; [|reflexivity].
  rewrite IH, map_fire. reflexivity.
Qed.

Lemma map_run_until (T : Z) (m : Machine A) :
  map_machine f (run_until runA T m) = run_until runB T (map_machine f m).
Proof.
  unfold run_until. cbn [timers map_machine]. rewrite length_fmap.
  rewrite <- map_run_loop. reflexivity.
Qed.

Lemma map_step (m m' : Machine A) :
  step runA m m' → step runB (map_machine f m) (map_machine f m').
Proof.
  intros [m0 dt Hdt|m0 t Hin Hready Hfirst].
  - apply (step_wait runB (map_machine f m0) dt Hdt).
  - rewrite map_fire. apply step_fire.
    + simpl. apply list_elem_of_fmap_2. exact Hin.
    + exact Hready.
    + simpl. apply Forall_fmap. eapply Forall_impl; [exact Hfirst|].
      intros u Hu. exact Hu.
Qed.

Lemma map_step_back (m : Machine A) (n : Machine B) :
  step runB (map_machine f m) n → ∃ m', n = map_machine f m' ∧ step runA m m'.
Proof.
  intros Hs. inversion Hs as [m0 dt Hdt|m0 t Hin Hready Hfirst]; subst.
  - exists (wait dt m). split; [reflexivity|]. constructor. exact Hdt.
  - simpl in Hin. apply list_elem_of_fmap_1 in Hin as (t0 & -> & Hin).
    exists (fire runA t0 m). split; [rewrite map_fire; reflexivity|].
    apply step_fire; [exact Hin|exact Hready|].
    simpl in Hfirst. apply Forall_fmap in Hfirst.
    eapply Forall_impl; [exact Hfirst|]. intros u Hu. exact Hu.
Qed.

End Simulation.

Section Variants.

Lemma legacy_run_commutes (c : Legacy.Closure) (m : Machine Legacy.Closure) :
  map_result rename_closure (Legacy.run c m) =
  Current.run (rename_closure c) (map_machine rename_closure m).
Proof.
  destruct c as [o|b o]; destruct o as [d [cb|]]; reflexivity.
Qed.

(** C10.  Read through the renaming of the option fields ([t] as
    [duration], [callBack] as [callback]), which is one-to-one, the three
    operations of the older variant return the same result and leave the
    same cell, trace, clock and pending timers as those of the published
    variant; firing a timer and running the loop commute with the
    renaming, and the two event loops can make exactly the same moves. *)
Theorem variants_agree_up_to_renaming (o : Legacy.TemporaryDisclosureFunctionOpts) (m : Machine Legacy.Closure) :
  map_result rename_closure (Legacy.openFor o m) =
    Current.openFor (rename_opts o) (map_machine rename_closure m) ∧
  map_result rename_closure (Legacy.openIn o m) =
    Current.openIn (rename_opts o) (map_machine rename_closure m) ∧
  map_result rename_closure (Legacy.closeIn o m) =
    Current.closeIn (rename_opts o) (map_machine rename_closure m) ∧
  (hook (map_machine rename_closure m) = hook m ∧
   log (map_machine rename_closure m) = log m ∧
   clock (map_machine rename_closure m) = clock m ∧
   (λ t, (handle t, due t)) <$> timers (map_machine rename_closure m) =
     (λ t, (handle t, due t)) <$> timers m) ∧
  (∀ t, map_machine rename_closure (fire Legacy.run t m) =
        fire Current.run (map_timer rename_closure t) (map_machine rename_closure m)) ∧
  (∀ T, map_machine rename_closure (run_until Legacy.run T m) =
        run_until Current.run T (map_machine rename_closure m)) ∧
  (∀ m', step Legacy.run m m' →
         step Current.run (map_machine rename_closure m) (map_machine rename_closure m')) ∧
  (∀ n, step Current.run (map_machine rename_closure m) n →
        ∃ m', n = map_machine rename_closure m' ∧ step Legacy.run m m') ∧
  unrename_opts (rename_opts o) = o ∧
  (∀ o', rename_opts (unrename_opts o') = o').
Proof.
  split. { unfold map_result. simpl. unfold map_machine. simpl. rewrite fmap_app. reflexivity. }
  split. { unfold map_result. simpl. unfold map_machine. simpl. rewrite fmap_app. reflexivity. }
  split. { unfold map_result. simpl. unfold map_machine. simpl. rewrite fmap_app. reflexivity. }
  split.
  { repeat split; try reflexivity. simpl. rewrite <- list_fmap_compose. reflexivity. }
  split. { intros t. apply map_fire. exact legacy_run_commutes. }
  split. { intros T. apply map_run_until. exact legacy_run_commutes. }
  split. { intros m'. apply map_step. exact legacy_run_commutes. }
  split. { intros n. apply map_step_back. exact legacy_run_commutes. }
  split; [destruct o; reflexivity|]. intros [d cb]. reflexivity.
Qed.

End Variants.

(** ** More on the event loop: nothing is cancelled *)

Section LoopInvariants.

Context {H : Type} (run : H → JS H unit).
Hypothesis run_frame : handler_frame run.

Implicit Types (m : Machine H) (t u : Timer H) (ts : list (Timer H)).

Lemma handle_inj ts t u :
  NoDup (handle <$> ts) → t ∈ ts → u ∈ ts → handle t = handle u → t = u.
Proof.
  induction ts as [|a ts IH]; intros Hnd Ht Hu Heq.
  - apply elem_of_nil in Ht. destruct Ht.
  - rewrite fmap_cons in Hnd. apply NoDup_cons in Hnd as [Hnotin Hnd].
    apply elem_of_cons in Ht as [->|Ht]; apply elem_of_cons in Hu as [->|Hu].
    + reflexivity.
    + exfalso. apply Hnotin. rewrite Heq. apply list_elem_of_fmap_2. exact Hu.
    + exfalso. apply Hnotin. rewrite <- Heq. apply list_elem_of_fmap_2. exact Ht.
    + apply IH; assumption.
Qed.

Lemma filter_handles_distinct (h : nat) ts :
  NoDup (handle <$> ts) → NoDup (handle <$> filter (λ t, handle t ≠ h) ts).
Proof.
  induction ts as [|a ts IH]; intros Hnd; [exact Hnd|].
  rewrite fmap_cons in Hnd. apply NoDup_cons in Hnd as [Hnotin Hnd].
  destruct (decide (handle a ≠ h)) as [Hne|Heq].
  - rewrite filter_cons_True by exact Hne. rewrite fmap_cons.
    apply NoDup_cons. split; [|apply IH; exact Hnd].
    intros Hin. apply Hnotin.
    apply list_elem_of_fmap_1 in Hin as (u & Hu & Hin).
    apply list_elem_of_filter in Hin as [_ Hin].
    rewrite Hu. apply list_elem_of_fmap_2. exact Hin.
  - rewrite filter_cons_False by exact Heq. apply IH. exact Hnd.
Qed.

Lemma step_well_formed m m' : step run m m' → well_formed m → well_formed m'.
Proof.
  intros Hs [Hnd Hf]. split; [|eapply step_handles_fresh; eassumption].
  destruct Hs as [m0 dt Hdt|m0 t _ _ _]; [exact Hnd|].
  rewrite (fire_timers run run_frame). apply filter_handles_distinct. exact Hnd.
Qed.

Lemma steps_well_formed m m' : steps run m m' → well_formed m → well_formed m'.
Proof.
  induction 1 as [|m1 m2 m3 Hs _ IH]; intros Hwf; [exact Hwf|].
  apply IH. eapply step_well_formed; eassumption.
Qed.

(** The trace only grows. *)
Lemma steps_log_grows m m' : steps run m m' → ∃ new, log m' = log m ++ new.
Proof.
  induction 1 as [m|m1 m2 m3 Hs _ IH].
  - exists []. rewrite app_nil_r. reflexivity.
  - destruct IH as (new & Hl).
    destruct Hs as [m0 dt Hdt|m0 t _ _ _]; [exists new; exact Hl|].
    destruct (fire_log run run_frame t m0) as (new0 & Hl0 & _).
    exists (new0 ++ new). rewrite Hl, Hl0, app_assoc. reflexivity.
Qed.

(** The loop registers nothing: what is pending later was pending before. *)
Lemma steps_timers_subset m m' t : steps run m m' → t ∈ timers m' → t ∈ timers m.
Proof.
  induction 1 as [m|m1 m2 m3 Hs _ IH]; intros Hin; [exact Hin|].
  specialize (IH Hin).
  destruct Hs as [m0 dt Hdt|m0 u _ _ _]; [exact IH|].
  rewrite (fire_timers run run_frame) in IH.
  apply list_elem_of_filter in IH as [_ IH]. exact IH.
Qed.

(** Once everything pending is due by [T], the punctual schedule up to [T]
    leaves nothing pending. *)
Lemma run_until_empties (T : Z) m :
  Forall (λ t, (due t ≤ T)%Z) (timers m) → timers (run_until run T m) = [].
Proof.
  intros Hdue.
  pose proof (run_until_drained run run_frame T m) as Hleft.
  destruct (timers (run_until run T m)) as [|u rest] eqn:E; [reflexivity|].
  exfalso.
  assert (Hu : u ∈ timers m).
  { apply (steps_timers_subset m (run_until run T m)).
    - apply run_until_steps.
    - rewrite E. apply list_elem_of_here. }
  pose proof (proj1 (Forall_forall _ _) Hdue u Hu) as Hle.
  inversion Hleft as [|? ? Hgt _]; subst. lia.
Qed.

(** If the timer that is first in firing order is also last, it is the
    only one with its handle, and the pending list holds nothing else. *)
Lemma first_and_last_is_alone ts t :
  Forall (λ u, precedes t u = true) ts →
  Forall (λ u, precedes u t = true) ts →
  filter (λ u, handle u ≠ handle t) ts = [].
Proof.
  intros Hfirst Hlast. induction ts as [|a ts IH]; [reflexivity|].
  inversion Hfirst as [|? ? Hta Hfirst']; subst.
  inversion Hlast as [|? ? Hat Hlast']; subst.
  rewrite filter_cons_False; [apply IH; assumption|].
  intros Hne. apply Hne.
  apply precedes_spec in Hta. apply precedes_spec in Hat. lia.
Qed.

End LoopInvariants.

Section Pending.

Import Current.

Implicit Types (o : TemporaryDisclosureFunctionOpts) (m : Machine Closure) (t u : Timer Closure).

Lemma operations_well_formed o m op c ws :
  (op, c, ws) ∈ operations o → well_formed m → well_formed (op m).2.
Proof.
  intros Hin [Hnd Hf]. split; [|eapply operations_handles_fresh; eassumption].
  destruct (operations_eq o m op c ws Hin) as [Hop _]. rewrite Hop.
  cbn [snd timers]. rewrite fmap_app. apply NoDup_app.
  split; [exact Hnd|]. split; [|apply NoDup_singleton].
  intros h Hh Hnew. apply list_elem_of_singleton in Hnew. simpl in Hnew.
  apply list_elem_of_fmap_1 in Hh as (u & -> & Hu).
  pose proof (proj1 (Forall_forall _ _) Hf u Hu) as Hlt. simpl in Hlt. lia.
Qed.

(** In any run, a pending timer is either still pending or has written. *)
Lemma steps_fired_or_pending m m' t :
  NoDup (handle <$> timers m) →
  t ∈ timers m →
  steps run m m' →
  ∃ new, log m' = log m ++ new ∧
         (t ∈ timers m' ∨
          ∃ at_, (due t ≤ at_)%Z ∧
                 write_by at_ (handle t) (written (handler t)) ∈ new).
Proof.
  intros Hnd Hin Hsteps. revert Hnd Hin.
  induction Hsteps as [m|m1 m2 m3 Hs Hrest IH]; intros Hnd Hin.
  - exists []. rewrite app_nil_r. auto.
  - destruct Hs as [m0 dt Hdt|m0 u Hu Hready _].
    + apply (IH Hnd Hin).
    + destruct (decide (handle u = handle t)) as [Heq|Hne].
      * assert (u = t) by (eapply handle_inj; eassumption). subst u.
        destruct (steps_log_grows run run_frame _ _ Hrest) as (new & Hl).
        rewrite fire_eq in Hl. cbn [log] in Hl.
        exists (transition_trace (clock m0) (handle t) (written (handler t))
                  (completion (handler t)) ++ new).
        rewrite Hl, app_assoc. split; [reflexivity|]. right.
        exists (clock m0). split; [exact Hready|].
        apply elem_of_app. left. apply list_elem_of_here.
      * destruct IH as (new & Hl & Hor).
        { rewrite fire_eq. cbn [timers]. apply filter_handles_distinct. exact Hnd. }
        { rewrite fire_eq. cbn [timers]. apply list_elem_of_filter.
          split; [congruence|exact Hin]. }
        rewrite fire_eq in Hl. cbn [log] in Hl.
        exists (transition_trace (clock m0) (handle u) (written (handler u))
                  (completion (handler u)) ++ new).
        rewrite Hl, app_assoc. split; [reflexivity|].
        destruct Hor as [Hp|(at_ & Hat & Hw)]; [left; exact Hp|right].
        exists at_. split; [exact Hat|]. apply elem_of_app. right. exact Hw.
Qed.

(** On the punctual schedule a pending timer writes at its due time, or
    at once if it is overdue. *)
Lemma run_loop_fires (fuel : nat) (T : Z) m t :
  NoDup (handle <$> timers m) →
  length (timers m) ≤ fuel →
  t ∈ timers m →
  (due t ≤ T)%Z →
  ∃ new, log (run_loop run fuel T m) = log m ++ new ∧
         write_by (Z.max (clock m) (due t)) (handle t) (written (handler t)) ∈ new.
Proof.
  revert m. induction fuel as [|fuel IH]; intros m Hnd Hlen Hin HT.
  - destruct (timers m); [apply elem_of_nil in Hin; destruct Hin|simpl in Hlen; lia].
  - destruct (pick (timers m)) as [u|] eqn:Hp;
      [|apply pick_None in Hp; rewrite Hp in Hin; apply elem_of_nil in Hin; destruct Hin].
    pose proof (pick_elem _ _ Hp) as Hu.
    pose proof (proj1 (Forall_forall _ _) (pick_first _ _ Hp) t Hin) as Hut.
    apply precedes_spec in Hut.
    rewrite (run_loop_fire run fuel T m u Hp) by lia.
    destruct (decide (handle u = handle t)) as [Heq|Hne].
    + assert (u = t) by (eapply handle_inj; eassumption). subst u.
      destruct (steps_log_grows run run_frame _ _
                  (run_loop_steps run fuel T (fire run t (wait_until (due t) m))))
        as (new & Hl).
      rewrite Hl, fire_eq. cbn [log wait_until set_clock clock].
      eexists. rewrite <- app_assoc. split; [reflexivity|].
      apply elem_of_app. left. apply list_elem_of_here.
    + destruct (IH (fire run u (wait_until (due u) m))) as (new & Hl & Hw).
      * rewrite fire_eq. cbn [timers wait_until set_clock].
        apply filter_handles_distinct. exact Hnd.
      * rewrite fire_eq. cbn [timers wait_until set_clock].
        pose proof (filter_handle_shorter (timers m) u Hu). lia.
      * rewrite fire_eq. cbn [timers wait_until set_clock].
        apply list_elem_of_filter. split; [congruence|exact Hin].
      * exact HT.
      * rewrite Hl. rewrite fire_eq in Hw |- *.
        cbn [log clock wait_until set_clock] in Hw |- *.
        replace (Z.max (Z.max (clock m) (due u)) (due t))
          with (Z.max (clock m) (due t)) in Hw by lia.
        eexists. rewrite <- app_assoc. split; [reflexivity|].
        apply elem_of_app. right. exact Hw.
Qed.

(** X1.  After any of the three operations, on a well-formed machine,
    every pending timer (those pending before the call included) stays
    pending until it fires: in every run of the loop it is either still
    pending or its flag write is in the trace, stamped at its due time or
    later; on the punctual schedule up to any [T] at or after its due time
    the write is in the trace, stamped with the due time (with the time of
    the call if the timer was overdue).  The call itself removes none. *)
Theorem pending_timers_are_never_cancelled o m op c ws t :
  well_formed m →
  (op, c, ws) ∈ operations o →
  t ∈ timers (op m).2 →
  (∀ u, u ∈ timers m → u ∈ timers (op m).2) ∧
  (∀ m', steps run (op m).2 m' →
         ∃ new, log m' = log (op m).2 ++ new ∧
                (t ∈ timers m' ∨
                 ∃ at_, (due t ≤ at_)%Z ∧
                        write_by at_ (handle t) (written (handler t)) ∈ new)) ∧
  (∀ T, (due t ≤ T)%Z →
        ∃ new, log (run_until run T (op m).2) = log (op m).2 ++ new ∧
               write_by (Z.max (clock m) (due t)) (handle t) (written (handler t)) ∈ new).
Proof.
  intros Hwf Hin Ht.
  destruct (operations_well_formed o m op c ws Hin Hwf) as [Hnd _].
  destruct (operations_eq o m op c ws Hin) as [Hop _].
  split.
  { intros u Hu. rewrite Hop. cbn [snd timers]. apply elem_of_app. left. exact Hu. }
  split.
  { intros m' Hsteps. apply steps_fired_or_pending; assumption. }
  intros T HT. unfold run_until. cbn [log wait_until set_clock].
  replace (clock m) with (clock (op m).2) by (rewrite Hop; reflexivity).
  apply run_loop_fires; [exact Hnd|lia|exact Ht|exact HT].
Qed.

Lemma mounted_well_formed : well_formed mounted.
Proof. split; constructor. Qed.

End Pending.

(** ** The last write wins *)

Section LastWrite.

Import Current.

Implicit Types (o : TemporaryDisclosureFunctionOpts) (m : Machine Closure) (t u : Timer Closure).

Lemma steps_last_write m m' t :
  NoDup (handle <$> timers m) →
  t ∈ timers m →
  Forall (λ u, precedes u t = true) (timers m) →
  steps run m m' →
  timers m' = [] →
  hook m' = Some (written (handler t)).
Proof.
  intros Hnd Hin Hlast Hsteps. revert Hnd Hin Hlast.
  induction Hsteps as [m|m1 m2 m3 Hs Hrest IH]; intros Hnd Hin Hlast Hnone.
  - rewrite Hnone in Hin. apply elem_of_nil in Hin. destruct Hin.
  - destruct Hs as [m0 dt Hdt|m0 u Hu Hready Hfirst].
    + apply IH; assumption.
    + destruct (decide (handle u = handle t)) as [Heq|Hne].
      * assert (u = t) by (eapply handle_inj; eassumption). subst u.
        eapply steps_keep_flag; [| |exact Hrest].
        -- rewrite fire_eq. reflexivity.
        -- rewrite fire_eq. cbn [timers].
           rewrite (first_and_last_is_alone _ _ Hfirst Hlast). constructor.
      * apply IH; [| | |exact Hnone].
        -- rewrite fire_eq. cbn [timers]. apply filter_handles_distinct. exact Hnd.
        -- rewrite fire_eq. cbn [timers]. apply list_elem_of_filter.
           split; [congruence|exact Hin].
        -- rewrite fire_eq. cbn [timers]. apply Forall_forall. intros v Hv.
           apply list_elem_of_filter in Hv as [_ Hv].
           apply (proj1 (Forall_forall _ _) Hlast v Hv).
Qed.

(** X2.  Among pending timers with distinct handles, let [t] be the one
    that is last in firing order (latest due time, registered last among
    equals).  Whatever the cell holds now and however late the loop runs,
    once nothing is pending any more the cell holds what [t] wrote; on the
    punctual schedule that is the case at any time by which every pending
    timer is due. *)
Theorem last_write_wins m t :
  NoDup (handle <$> timers m) →
  t ∈ timers m →
  Forall (λ u, precedes u t = true) (timers m) →
  (∀ m', steps run m m' → timers m' = [] → hook m' = Some (written (handler t))) ∧
  (∀ T, Forall (λ u, (due u ≤ T)%Z) (timers m) →
        timers (run_until run T m) = [] ∧
        hook (run_until run T m) = Some (written (handler t))).
Proof.
  intros Hnd Hin Hlast. split.
  - intros m' Hsteps Hnone. eapply steps_last_write; eassumption.
  - intros T Hdue.
    pose proof (run_until_empties run run_frame T m Hdue) as Hnone.
    split; [exact Hnone|].
    eapply steps_last_write; [exact Hnd|exact Hin|exact Hlast| |exact Hnone].
    apply run_until_steps.
Qed.

(** Two operations called one right after the other, with nothing else
    pending: the timer with the later due time fires last, the second one
    when the due times are equal. *)
Lemma two_calls_last_timer_wins o1 o2 m op1 c1 ws1 op2 c2 ws2 :
  timers m = [] →
  (op1, c1, ws1) ∈ operations o1 →
  (op2, c2, ws2) ∈ operations o2 →
  let d1 := timeout_of (or_number (duration o1) (Num 0)) in
  let d2 := timeout_of (or_number (duration o2) (Num 0)) in
  (∀ m', steps run (op2 (op1 m).2).2 m' →
         timers m' = [] →
         hook m' = Some (written (if (d1 <=? d2)%Z then c2 else c1))) ∧
  (∀ T, (clock m + d1 ≤ T)%Z → (clock m + d2 ≤ T)%Z →
        timers (run_until run T (op2 (op1 m).2).2) = [] ∧
        hook (run_until run T (op2 (op1 m).2).2) =
          Some (written (if (d1 <=? d2)%Z then c2 else c1))).
Proof.
  intros Hnone H1 H2 d1 d2. subst d1 d2.
  assert (Hany : ∀ m', steps run (op2 (op1 m).2).2 m' →
                       timers m' = [] →
                       hook m' =
                         Some (written (if (timeout_of (or_number (duration o1) (Num 0)) <=?
                                            timeout_of (or_number (duration o2) (Num 0)))%Z
                                        then c2 else c1))); [|split; [exact Hany|]].
  2: { intros T HT1 HT2.
       assert (Hempty : timers (run_until run T (op2 (op1 m).2).2) = []).
       { apply (run_until_empties run run_frame).
         destruct (operations_eq o1 m op1 c1 ws1 H1) as [Hop1 _].
         destruct (operations_eq o2 (op1 m).2 op2 c2 ws2 H2) as [Hop2 _].
         rewrite Hop2. cbn [snd timers]. rewrite Hop1. cbn [snd timers clock].
         rewrite Hnone. repeat constructor; simpl; lia. }
       split; [exact Hempty|]. apply Hany; [apply run_until_steps|exact Hempty]. }
  intros m' Hsteps Hdone.
  destruct (operations_eq o1 m op1 c1 ws1 H1) as [Hop1 _].
  destruct (operations_eq o2 (op1 m).2 op2 c2 ws2 H2) as [Hop2 _].
  rewrite Hop2 in Hsteps. cbn [snd] in Hsteps.
  rewrite Hop1 in Hsteps. cbn [snd timers clock next_handle] in Hsteps.
  rewrite Hnone in Hsteps. cbn [app] in Hsteps.
  unfold registered in Hsteps. cbn [clock next_handle] in Hsteps.
  set (t1 := {| handle := next_handle m;
                due := clock m + timeout_of (or_number (duration o1) (Num 0));
                handler := c1 |}) in *.
  set (t2 := {| handle := S (next_handle m);
                due := clock m + timeout_of (or_number (duration o2) (Num 0));
                handler := c2 |}) in *.
  assert (Hnd : NoDup (handle <$> [t1; t2])).
  { simpl. apply NoDup_cons. split; [|apply NoDup_singleton].
    intros Hin. apply list_elem_of_singleton in Hin. lia. }
  destruct (Z.leb_spec (timeout_of (or_number (duration o1) (Num 0)))
                       (timeout_of (or_number (duration o2) (Num 0)))) as [Hle|Hgt].
  - apply (steps_last_write _ m' t2) in Hsteps; [exact Hsteps|exact Hnd| | |exact Hdone].
    + cbn [timers]. apply list_elem_of_further, list_elem_of_here.
    + cbn [timers]. repeat constructor; apply precedes_spec; simpl; lia.
  - apply (steps_last_write _ m' t1) in Hsteps; [exact Hsteps|exact Hnd| | |exact Hdone].
    + cbn [timers]. apply list_elem_of_here.
    + cbn [timers]. repeat constructor; apply precedes_spec; simpl; lia.
Qed.

(** X3.  Two operations called one right after the other, with nothing
    else pending and integer durations [d1], [d2] between 1 and
    2147483647: once both timers have fired, in any run of the loop, the
    cell holds the target of the call with the longer duration, and the
    target of the second call when the durations are equal. *)
Theorem two_calls_longer_duration_wins o1 o2 m op1 c1 ws1 op2 c2 ws2 (d1 d2 : Z) :
  timers m = [] →
  (op1, c1, ws1) ∈ operations o1 →
  (op2, c2, ws2) ∈ operations o2 →
  duration o1 = Some (Num d1) → (1 ≤ d1)%Z → (d1 ≤ TIMEOUT_MAX)%Z →
  duration o2 = Some (Num d2) → (1 ≤ d2)%Z → (d2 ≤ TIMEOUT_MAX)%Z →
  (∀ m', steps run (op2 (op1 m).2).2 m' →
         timers m' = [] →
         hook m' = Some (written (if (d1 <=? d2)%Z then c2 else c1))) ∧
  (∀ T, (clock m + d1 ≤ T)%Z → (clock m + d2 ≤ T)%Z →
        timers (run_until run T (op2 (op1 m).2).2) = [] ∧
        hook (run_until run T (op2 (op1 m).2).2) =
          Some (written (if (d1 <=? d2)%Z then c2 else c1))).
Proof.
  intros Hnone H1 H2 Hd1 Hlo1 Hhi1 Hd2 Hlo2 Hhi2.
  pose proof (two_calls_last_timer_wins o1 o2 m op1 c1 ws1 op2 c2 ws2 Hnone H1 H2) as Hw.
  cbv zeta in Hw. rewrite Hd1, Hd2 in Hw.
  rewrite !delay_of_duration in Hw by (assumption || lia).
  exact Hw.
Qed.

End LastWrite.

(** ** How the operations compose *)

Section Composition.

Import Current.

Implicit Types (o : TemporaryDisclosureFunctionOpts) (m : Machine Closure).

Lemma as_action_commutes (c : Closure) m :
  map_result as_action (run c m) = run (as_action c) (map_machine as_action m).
Proof. destruct c as [o|b o]; destruct o as [d [cb|]]; reflexivity. Qed.

Lemma openFor_as_action o m :
  map_machine as_action (openFor o m).2 =
  map_machine as_action ((setIsOpen true ;; closeIn o)%js m).2.
Proof.
  unfold closeIn. rewrite openFor_eq. unfold bind, setIsOpen. cbn [fst snd].
  rewrite action_eq. unfold map_machine. simpl. rewrite !fmap_app. reflexivity.
Qed.

(** X4.  [openFor o] is [setIsOpen(true)] followed by [closeIn o]: the two
    return the same result, and at every time [T] of the punctual schedule
    they show the same cell, the same trace, the same clock and pending
    timers with the same handles and due times, whatever was pending
    before. *)
Theorem openFor_is_open_then_closeIn o m (T : Z) :
  (openFor o m).1 = ((setIsOpen true ;; closeIn o)%js m).1 ∧
  hook (run_until run T (openFor o m).2) =
    hook (run_until run T ((setIsOpen true ;; closeIn o)%js m).2) ∧
  log (run_until run T (openFor o m).2) =
    log (run_until run T ((setIsOpen true ;; closeIn o)%js m).2) ∧
  clock (run_until run T (openFor o m).2) =
    clock (run_until run T ((setIsOpen true ;; closeIn o)%js m).2) ∧
  (λ t, (handle t, due t)) <$> timers (run_until run T (openFor o m).2) =
    (λ t, (handle t, due t)) <$> timers (run_until run T ((setIsOpen true ;; closeIn o)%js m).2).
Proof.
  split; [reflexivity|].
  pose proof (map_run_until as_action run run as_action_commutes T (openFor o m).2) as Ha.
  pose proof (map_run_until as_action run run as_action_commutes T
                ((setIsOpen true ;; closeIn o)%js m).2) as Hb.
  rewrite openFor_as_action, <- Hb in Ha.
  split; [exact (f_equal hook Ha)|].
  split; [exact (f_equal log Ha)|].
  split; [exact (f_equal clock Ha)|].
  apply (f_equal (λ x, (λ t, (handle t, due t)) <$> timers x)) in Ha.
  cbn [timers map_machine] in Ha. rewrite <- !list_fmap_compose in Ha. exact Ha.
Qed.

(** X5.  Calling [openFor o] again while the first timer is still pending
    does not push the close back.  With nothing else pending and a delay
    [d > 0], a second call [k] ms after the first ([0 < k < d]) leaves two
    timers; the cell is [true] until [d] ms after the first call, and
    [false] from then on, the second timer still pending until [k + d]. *)
Theorem reopening_does_not_extend o m (k : Z) :
  timers m = [] →
  (0 < k)%Z →
  (k < timeout_of (or_number (duration o) (Num 0)))%Z →
  let d := timeout_of (or_number (duration o) (Num 0)) in
  let m2 := (openFor o (run_until run (clock m + k) (openFor o m).2)).2 in
  let t1 := {| handle := next_handle m; due := clock m + d; handler := OpenForTimeout o |} in
  let t2 := {| handle := S (next_handle m); due := clock m + k + d; handler := OpenForTimeout o |} in
  hook m2 = Some true ∧
  timers m2 = [t1; t2] ∧
  (∀ T, (T < clock m + d)%Z → hook (run_until run T m2) = Some true) ∧
  (∀ T, (clock m + d ≤ T)%Z → (T < clock m + k + d)%Z →
        hook (run_until run T m2) = Some false ∧
        timers (run_until run T m2) = [t2]) ∧
  (∀ T, (clock m + k + d ≤ T)%Z →
        hook (run_until run T m2) = Some false ∧
        timers (run_until run T m2) = []).
Proof.
  intros Hnone Hk Hd d m2 t1 t2.
  assert (Hm2 : m2 =
    {| clock := clock m + k; running := running m; hook := Some true;
       timers := [t1; t2]; next_handle := S (S (next_handle m));
       globals := globals m;
       log := (log m ++ [{| at_ms := clock m; by_timer := running m; what := FlagSet true |}])
              ++ [{| at_ms := clock m + k; by_timer := running m; what := FlagSet true |}] |}).
  { subst m2.
    rewrite (run_until_early (registered (OpenForTimeout o) (duration o) m));
      [|rewrite openFor_eq; cbn [snd timers]; rewrite Hnone; reflexivity
       |simpl; fold d; lia].
    rewrite !openFor_eq. cbn [snd]. unfold wait_until, set_clock, registered.
    cbn [clock running hook timers next_handle globals log].
    rewrite Hnone. cbn [app].
    replace (Z.max (clock m) (clock m + k)) with (clock m + k)%Z by lia.
    reflexivity. }
  assert (H12 : precedes t1 t2 = true) by (apply precedes_spec; simpl; lia).
  assert (Hpick : pick [t1; t2] = Some t1) by (rewrite pick_pair, H12; reflexivity).
  assert (Hf1 : filter (λ u : Timer Closure, handle u ≠ handle t1) [t1; t2] = [t2]).
  { rewrite filter_cons_False by (intros Hne; apply Hne; reflexivity).
    rewrite filter_cons_True by (simpl; lia). reflexivity. }
  assert (Hf2 : filter (λ u : Timer Closure, handle u ≠ handle t2) [t2] = []).
  { rewrite filter_cons_False by (intros Hne; apply Hne; reflexivity). reflexivity. }
  rewrite Hm2. clear Hm2 m2.
  split; [reflexivity|]. split; [reflexivity|].
  split.
  { intros T HT. unfold run_until. cbn [timers length].
    rewrite (run_loop_stop run 2 T _ t1); [|exact Hpick|simpl; lia].
    reflexivity. }
  split.
  { intros T HT1 HT2. unfold run_until. cbn [timers length].
    rewrite (run_loop_fire run 1 T _ t1); [|exact Hpick|simpl; lia].
    rewrite fire_eq. cbn [timers wait_until set_clock]. rewrite Hf1.
    rewrite (run_loop_stop run 1 T _ t2); [|reflexivity|simpl; lia].
    split; reflexivity. }
  intros T HT. unfold run_until. cbn [timers length].
  rewrite (run_loop_fire run 1 T _ t1); [|exact Hpick|simpl; lia].
  rewrite fire_eq. cbn [timers wait_until set_clock]. rewrite Hf1.
  rewrite (run_loop_fire run 0 T _ t2); [|reflexivity|simpl; lia].
  rewrite fire_eq. cbn [timers wait_until set_clock]. rewrite Hf2.
  split; reflexivity.
Qed.

End Composition.

(** ** Callbacks and renders *)

Section CallbackAndRender.

Import Current.

Implicit Types (o : TemporaryDisclosureFunctionOpts) (m : Machine Closure).

(** X6.  With a callback in the options and nothing else pending, each
    operation returns normally whether or not the callback would throw.
    On the punctual schedule the trace shows, before the due time, only
    the call's own writes; from the due time on, exactly one more flag
    write followed by exactly one invocation of the callback, both stamped
    with the due time, and after them the report of the exception if the
    callback threw.  The cell holds the written value either way. *)
Theorem callback_runs_once_after_the_write o m op c ws cb :
  callback o = Some cb →
  timers m = [] →
  (op, c, ws) ∈ operations o →
  let tm := registered c (duration o) m in
  (op m).1 = inr tt ∧
  (∀ T, (T < due tm)%Z →
        log (run_until run T (op m).2) = log m ++ during_call m ws) ∧
  (∀ T, (due tm ≤ T)%Z →
        hook (run_until run T (op m).2) = Some (written c) ∧
        timers (run_until run T (op m).2) = [] ∧
        log (run_until run T (op m).2) =
          (log m ++ during_call m ws) ++
          [ write_by (due tm) (handle tm) (written c);
            {| at_ms := due tm; by_timer := Some (handle tm); what := Invoked cb |} ] ++
          (if cb_throws cb
           then [{| at_ms := due tm; by_timer := Some (handle tm);
                    what := Uncaught (CallbackThrew cb) |}]
           else [])).
Proof.
  intros Hcb Hnone Hin tm. subst tm.
  destruct (operations_eq o m op c ws Hin) as [Hop Hc].
  pose proof (timeout_of_nonneg (or_number (duration o) (Num 0))) as Hpos.
  rewrite Hop. cbn [fst snd].
  split; [reflexivity|]. split.
  - intros T HT.
    rewrite (run_until_early (registered c (duration o) m));
      [reflexivity|cbn [timers]; rewrite Hnone; reflexivity|exact HT].
  - intros T HT.
    rewrite (run_until_single (registered c (duration o) m));
      [|cbn [timers]; rewrite Hnone; reflexivity|simpl; lia|exact HT].
    cbn [hook timers log handler registered]. rewrite Hc, Hcb.
    split; [reflexivity|]. split; [reflexivity|].
    unfold transition_trace, write_by. destruct (cb_throws cb); reflexivity.
Qed.

Lemma callback_runs_once_after_the_write_witness :
  callback {| duration := Some (Num 7); callback := Some {| cb_name := "boom"; cb_throws := true |} |} = Some {| cb_name := "boom"; cb_throws := true |} ∧
  timers mounted = [] ∧
  hook (run_until run 7
          (openIn {| duration := Some (Num 7);
                     callback := Some {| cb_name := "boom"; cb_throws := true |} |} mounted).2) = Some true.
Proof.
  split; [reflexivity|]. split; [reflexivity|].
  destruct (callback_runs_once_after_the_write
              {| duration := Some (Num 7);
                 callback := Some {| cb_name := "boom"; cb_throws := true |} |}
              mounted
              (openIn {| duration := Some (Num 7);
                         callback := Some {| cb_name := "boom"; cb_throws := true |} |})
              (ActionTimeout true {| duration := Some (Num 7);
                                     callback := Some {| cb_name := "boom"; cb_throws := true |} |})
              [] {| cb_name := "boom"; cb_throws := true |} eq_refl eq_refl)
    as (_ & _ & Hdue).
  - unfold operations. apply list_elem_of_further, list_elem_of_here.
  - destruct (Hdue 7%Z) as (Hh & _); [simpl; lia|]. exact Hh.
Defined.

Lemma steps_hook_set m m' : is_Some (hook m) → steps run m m' → is_Some (hook m').
Proof.
  intros Hset Hsteps. revert Hset.
  induction Hsteps as [m|m1 m2 m3 Hs _ IH]; intros Hset; [exact Hset|].
  apply IH. destruct Hs as [m0 dt Hdt|m0 t _ _ _]; [exact Hset|].
  rewrite fire_eq. eexists. reflexivity.
Qed.

(** X7.  Once the component has rendered, the cell is never unset again by
    an operation or by the event loop, and every later render hands out
    the current value of the cell as [isOpen], with the same four
    properties, without writing the cell, the trace or the timers: a
    render never resets the flag to [false]. *)
Theorem later_renders_report_the_cell o m op c ws m' :
  is_Some (hook m) →
  (op, c, ws) ∈ operations o →
  steps run (op m).2 m' →
  ∃ b obj,
    hook m' = Some b ∧
    useTemporaryDisclosure m' = (inr obj, m') ∧
    obj !! "isOpen" = Some (VBool b) ∧
    dom obj = UseTemporaryDisclosureObj.
Proof.
  intros Hset Hin Hsteps.
  assert (Hset1 : is_Some (hook (op m).2)).
  { destruct (operations_eq o m op c ws Hin) as [Hop _]. rewrite Hop. cbn [snd hook].
    destruct ws; [exact Hset|eexists; reflexivity]. }
  destruct (steps_hook_set _ _ Hset1 Hsteps) as [b Hb].
  exists b. eexists. split; [exact Hb|].
  rewrite current_factory_eq, Hb. cbn [default].
  split.
  - f_equal. destruct m' as [cl r h ts n g l]. simpl in Hb. subst h. reflexivity.
  - split; [apply lookup_insert_eq|].
    rewrite !dom_insert_L, dom_empty_L. compute_done.
Qed.

Lemma later_renders_report_the_cell_witness :
  is_Some (hook mounted) ∧
  ∃ obj, useTemporaryDisclosure (run_until run 10 (openFor demo_opts mounted).2) =
           (inr obj, run_until run 10 (openFor demo_opts mounted).2) ∧
         obj !! "isOpen" = Some (VBool true).
Proof.
  assert (Hset : is_Some (hook mounted)) by (eexists; reflexivity).
  split; [exact Hset|].
  destruct (later_renders_report_the_cell demo_opts mounted
              (openFor demo_opts) (OpenForTimeout demo_opts) [FlagSet true]
              (run_until run 10 (openFor demo_opts mounted).2) Hset)
    as (b & obj & Hb & Hr & Hi & _).
  - unfold operations. apply list_elem_of_here.
  - apply run_until_steps.
  - exists obj. split; [exact Hr|].
    rewrite Hi. f_equal. f_equal.
    assert (Hnow : hook (run_until run 10 (openFor demo_opts mounted).2) = Some true)
      by (vm_compute; reflexivity).
    rewrite Hnow in Hb. injection Hb as <-. reflexivity.
Defined.

End CallbackAndRender.

(** ** The properties above on a mounted component *)

Section Mounted.

Import Current.

(** [openFor] for 3000 ms, then [closeIn] 10 ms: the close of [openFor],
    pending before the second call, still lands at 3000 ms. *)
Lemma pending_timers_are_never_cancelled_witness :
  well_formed (openFor demo_opts mounted).2 ∧
  write_by 3000 0 false ∈
    log (run_until run 3000
           (closeIn {| duration := Some (Num 10); callback := None |}
              (openFor demo_opts mounted).2).2).
Proof.
  assert (Hwf : well_formed (openFor demo_opts mounted).2).
  { apply (operations_well_formed demo_opts mounted
             (openFor demo_opts) (OpenForTimeout demo_opts) [FlagSet true]).
    - unfold operations. apply list_elem_of_here.
    - apply mounted_well_formed. }
  split; [exact Hwf|].
  destruct (pending_timers_are_never_cancelled
              {| duration := Some (Num 10); callback := None |}
              (openFor demo_opts mounted).2
              (closeIn {| duration := Some (Num 10); callback := None |})
              (ActionTimeout false {| duration := Some (Num 10); callback := None |}) []
              {| handle := 0; due := 3000; handler := OpenForTimeout demo_opts |} Hwf)
    as (_ & _ & Hrun).
  - unfold operations. apply list_elem_of_further, list_elem_of_further, list_elem_of_here.
  - apply list_elem_of_here.
  - destruct (Hrun 3000%Z) as (new & Hl & Hw); [simpl; lia|].
    rewrite Hl. apply elem_of_app. right. exact Hw.
Defined.

(** The same two calls: the timer of [openFor] is last, so the cell ends
    up [false] from its write. *)
Lemma last_write_wins_witness :
  NoDup (handle <$> timers (closeIn {| duration := Some (Num 10); callback := None |}
                              (openFor demo_opts mounted).2).2) ∧
  hook (run_until run 3000
          (closeIn {| duration := Some (Num 10); callback := None |}
             (openFor demo_opts mounted).2).2) = Some false.
Proof.
  assert (Hnd : NoDup (handle <$> timers (closeIn {| duration := Some (Num 10); callback := None |}
                                            (openFor demo_opts mounted).2).2)).
  { simpl. apply NoDup_cons. split; [|apply NoDup_singleton].
    intros Hin. apply list_elem_of_singleton in Hin. discriminate Hin. }
  split; [exact Hnd|].
  destruct (last_write_wins
              (closeIn {| duration := Some (Num 10); callback := None |}
                 (openFor demo_opts mounted).2).2
              {| handle := 0; due := 3000; handler := OpenForTimeout demo_opts |} Hnd)
    as (_ & Hrun).
  - apply list_elem_of_here.
  - repeat constructor.
  - destruct (Hrun 3000%Z) as (_ & Hh); [repeat constructor; simpl; lia|].
    exact Hh.
Defined.

(** [openIn] and then [closeIn] with the same duration: the second call
    has the last word. *)
Lemma two_calls_longer_duration_wins_witness :
  timers mounted = [] ∧
  hook (run_until run 5
          (closeIn {| duration := Some (Num 5); callback := None |}
             (openIn {| duration := Some (Num 5); callback := None |} mounted).2).2) =
  Some false.
Proof.
  split; [reflexivity|].
  destruct (two_calls_longer_duration_wins
              {| duration := Some (Num 5); callback := None |}
              {| duration := Some (Num 5); callback := None |}
              mounted
              (openIn {| duration := Some (Num 5); callback := None |})
              (ActionTimeout true {| duration := Some (Num 5); callback := None |}) []
              (closeIn {| duration := Some (Num 5); callback := None |})
              (ActionTimeout false {| duration := Some (Num 5); callback := None |}) []
              5%Z 5%Z eq_refl) as (_ & Hrun);
    [unfold operations; apply list_elem_of_further, list_elem_of_here
    |unfold operations; apply list_elem_of_further, list_elem_of_further, list_elem_of_here
    |reflexivity|lia|unfold TIMEOUT_MAX; lia
    |reflexivity|lia|unfold TIMEOUT_MAX; lia|].
  destruct (Hrun 5%Z) as (_ & Hh); [simpl; lia|simpl; lia|]. exact Hh.
Defined.

(** [openFor] for 3000 ms, called again after 1000 ms: closed at 3000 ms,
    with the second timer still pending. *)
Lemma reopening_does_not_extend_witness :
  timers mounted = [] ∧
  (0 < 1000)%Z ∧
  (1000 < timeout_of (or_number (duration demo_opts) (Num 0)))%Z ∧
  hook (run_until run 3000
          (openFor demo_opts (run_until run (clock mounted + 1000)
                                (openFor demo_opts mounted).2)).2) = Some false.
Proof.
  assert (Hk : (0 < 1000)%Z) by lia.
  assert (Hd : (1000 < timeout_of (or_number (duration demo_opts) (Num 0)))%Z)
    by (simpl; lia).
  split; [reflexivity|]. split; [exact Hk|]. split; [exact Hd|].
  destruct (reopening_does_not_extend demo_opts mounted 1000 eq_refl Hk Hd)
    as (_ & _ & _ & Hmid & _).
  destruct (Hmid 3000%Z) as (Hh & _); [simpl; lia|simpl; lia|]. exact Hh.
Defined.

End Mounted.

(** A duration that does not fit in 32 bits, on a freshly mounted
    component: the timer of [closeIn] has fired 1 ms after the call. *)
Example closeIn_past_32_bits :
  log (run_until Current.run 1 (Current.closeIn overlong_opts mounted).2) =
  [ write_by 1 0 false ].
Proof. vm_compute. reflexivity. Qed.
